(** * molecule/utilities.py: merge_dicts and format_instance_name

    A shallow embedding of the two functions of [molecule/utilities.py]
    that carry logic: the recursive dictionary merge [merge_dicts], which
    mutates its first argument in place, and the pure lookup
    [format_instance_name].

    Python dictionaries are mutable objects that are passed by reference,
    so [merge_dicts] is modelled over an explicit store: a dictionary value
    is a location, the store maps locations to association lists, and two
    values alias when they hold the same location. *)

From Stdlib Require Import ZArith Ascii String.
From stdpp Require Import gmap strings list.



(** ** Values *)

(** Immutable payloads: the scalars a configuration file can hold. *)
Inductive leaf : Type :=
  | LNone
  | LBool (b : bool)
  | LInt (z : Z)
  | LStr (s : string).

Abbreviation loc := nat (only parsing).

(** A Python value is a scalar or a reference to a dictionary object. *)
Inductive value : Type :=
  | VLeaf (x : leaf)
  | VDict (l : loc).

(** Dictionary contents: string keys, unique, in iteration order. The
    operations are generic in the type of the entries so that they also
    serve the nested values further down. *)
Fixpoint dict_get {V : Type} (k : string) (d : list (string * V)) : option V :=
  match d with
  | [] => None
  | (k', v) :: d' => if String.eqb k k' then Some v else dict_get k d'
  end.

(** [d[k] = v]: replaces the entry in place, or adds one at the end. *)
Fixpoint dict_set {V : Type} (k : string) (v : V) (d : list (string * V))
  : list (string * V) :=
  match d with
  | [] => [(k, v)]
  | (k', v') :: d' =>
      if String.eqb k k' then (k', v) :: d' else (k', v') :: dict_set k v d'
  end.

Definition dict_keys {V : Type} (d : list (string * V)) : list string :=
  map fst d.

Abbreviation dict := (list (string * value)) (only parsing).

(** The store: location [l] is the [l]-th allocated dictionary. *)
Abbreviation heap := (list (list (string * value))) (only parsing).

(** [{}]: a new dictionary object. *)
Definition alloc (h : heap) : loc * heap := (length h, h ++ [[]]).

(** ** Python equality on scalars

    [bool] is a subclass of [int] in Python, so [True == 1] and
    [False == 0]; values of unrelated types are never equal. *)
Definition leaf_num (x : leaf) : option Z :=
  match x with
  | LBool b => Some (if b then 1 else 0)%Z
  | LInt z => Some z
  | _ => None
  end.

Definition leaf_eq (x y : leaf) : bool :=
  match x, y with
  | LNone, LNone => true
  | LStr s, LStr t => String.eqb s t
  | _, _ =>
      match leaf_num x, leaf_num y with
      | Some n, Some m => Z.eqb n m
      | _, _ => false
      end
  end.

(** [x == y] where [x] and [y] are not both dictionaries: a dictionary
    never equals a scalar.  The case of two dictionaries is taken by the
    [isinstance] test that precedes the comparison in [merge_dicts]. *)
Definition py_eq (x y : value) : bool :=
  match x, y with
  | VLeaf x, VLeaf y => leaf_eq x y
  | _, _ => false
  end.

(** ** Outcomes *)

Inductive exn : Type :=
  | LookupError (msg : string)
  | KeyError (k : string)
  | RuntimeError.

(** The outcome of running a piece of code from a given store. [OutOfFuel]
    stands for a computation that has not finished within the recursion
    budget; [Dangling] for a location that the store does not hold, which
    no Python state exhibits. *)
Inductive result (A : Type) : Type :=
  | Returned (x : A) (h : heap)
  | Raised (e : exn) (h : heap)
  | OutOfFuel
  | Dangling.

Arguments Returned {A} x h.
Arguments Raised {A} e h.
Arguments OutOfFuel {A}.
Arguments Dangling {A}.

(** ** copy.deepcopy

    The library function, restricted to the values of this model. Scalars
    are atomic and returned as they are. For a dictionary the memo is
    consulted first; otherwise a new dictionary is created, recorded in
    the memo, and filled with copies of the items. *)

Abbreviation memo := (list (loc * loc)) (only parsing).

Fixpoint memo_get (l : loc) (m : memo) : option loc :=
  match m with
  | [] => None
  | (l1, l2) :: m' => if Nat.eqb l l1 then Some l2 else memo_get l m'
  end.

Section deepcopy_items.
Variable rec : value → memo → heap → result (value * memo).

  (** [for key, value in x.iteritems(): y[key] = deepcopy(value, memo)] *)
Fixpoint deepcopy_items (y : loc) (items : dict) (m : memo) (h : heap)
    : result memo :=
    match items with
    | [] => Returned m h
    | (k, v) :: items' =>
        match rec v m h with
        | Returned (v', m') h' =>
            match h' !! y with
            | Some dy => deepcopy_items y items' m' (<[y := dict_set k v' dy]> h')
            | None => Dangling
            end
        | Raised e h' => Raised e h'
        | OutOfFuel => OutOfFuel
        | Dangling => Dangling
        end
    end.
End deepcopy_items.

Fixpoint deepcopy (fuel : nat) (x : value) (m : memo) (h : heap)
  : result (value * memo) :=
  match fuel with
  | 0 => OutOfFuel
  | S fuel' =>
      match x with
      | VLeaf _ => Returned (x, m) h
      | VDict l =>
          match memo_get l m with
          | Some l' => Returned (VDict l', m) h
          | None =>
              match h !! l with
              | None => Dangling
              | Some d =>
                  let (y, h1) := alloc h in
                  match deepcopy_items (deepcopy fuel') y d ((l, y) :: m) h1 with
                  | Returned m' h' => Returned (VDict y, m') h'
                  | Raised e h' => Raised e h'
                  | OutOfFuel => OutOfFuel
                  | Dangling => Dangling
                  end
              end
          end
      end
  end.

(** ** merge_dicts *)

(** ['.'.join(path)] and the message of the [LookupError]. *)
Definition dotted (path : list string) : string := String.concat "." path.

Definition conflict_msg (path : list string) : string :=
  "Conflict at '" +:+ dotted path +:+ "'".

Section merge_body.
  (** The recursive call, with [raise_conflicts] fixed, and the budget
      left for [copy.deepcopy]. *)
Variable rec : loc → loc → list string → heap → result loc.
Variable copy_fuel : nat.
Variable raise_conflicts : bool.

  (** The body of the loop, for one [key] of [b]. *)
Definition merge_key (a b : loc) (path : list string) (key : string)
      (h : heap) : result unit :=
    match h !! a, h !! b with
    | Some da, Some db =>
        match dict_get key db with
        | None => Raised (KeyError key) h
        | Some bv =>
            match dict_get key da with
            | Some av =>
                (* the key exists in both dictionaries *)
                match av, bv with
                | VDict a', VDict b' =>
                    match rec a' b' (path ++ [key]) h with
                    | Returned _ h' => Returned tt h'
                    | Raised e h' => Raised e h'
                    | OutOfFuel => OutOfFuel
                    | Dangling => Dangling
                    end
                | _, _ =>
                    if py_eq av bv then Returned tt h
                    else if raise_conflicts then
                      Raised (LookupError (conflict_msg (path ++ [key]))) h
                    else Returned tt (<[a := dict_set key bv da]> h)
                end
            | None =>
                (* the key does not exist in A: import it *)
                match bv with
                | VDict _ =>
                    match deepcopy copy_fuel bv [] h with
                    | Returned (v', _) h' =>
                        match h' !! a with
                        | Some da' =>
                            Returned tt (<[a := dict_set key v' da']> h')
                        | None => Dangling
                        end
                    | Raised e h' => Raised e h'
                    | OutOfFuel => OutOfFuel
                    | Dangling => Dangling
                    end
                | VLeaf _ => Returned tt (<[a := dict_set key bv da]> h)
                end
            end
        end
    | _, _ => Dangling
    end.

  (** [for key in b: ...; return a].  The iterator walks the keys that [b]
      held when the loop started, [n] of them, and raises [RuntimeError]
      when it finds that [b] has changed size since. *)
Fixpoint merge_keys (a b : loc) (path : list string) (n : nat)
      (keys : list string) (h : heap) : result loc :=
    match h !! b with
    | None => Dangling
    | Some db =>
        if negb (length db =? n) then Raised RuntimeError h
        else
          match keys with
          | [] => Returned a h
          | key :: keys' =>
              match merge_key a b path key h with
              | Returned _ h' => merge_keys a b path n keys' h'
              | Raised e h' => Raised e h'
              | OutOfFuel => OutOfFuel
              | Dangling => Dangling
              end
          end
    end.
End merge_body.

Fixpoint merge_dicts (fuel : nat) (a b : loc) (raise_conflicts : bool)
    (path : list string) (h : heap) : result loc :=
  match fuel with
  | 0 => OutOfFuel
  | S fuel' =>
      match h !! a, h !! b with
      | Some _, Some db =>
          merge_keys (fun a' b' => merge_dicts fuel' a' b' raise_conflicts)
            fuel' raise_conflicts a b path (length db) (dict_keys db) h
      | _, _ => Dangling
      end
  end.

(** ** Configuration trees

    The nested value that a store holds below a reference, with the
    references unfolded. *)

Inductive tree : Type :=
  | Leaf (x : leaf)
  | Map (es : list (string * tree)).

Abbreviation entries := (list (string * tree)) (only parsing).

Fixpoint tree_height (t : tree) : nat :=
  match t with
  | Leaf _ => 1
  | Map es => S (list_max (map (fun e => match e with (_, t') => tree_height t' end) es))
  end.

Definition entries_height (es : entries) : nat :=
  list_max (map (fun e => tree_height e.2) es).

(** [repr h v t F]: in store [h] the value [v] unfolds to the tree [t],
    the dictionaries of which are the locations [F], each met once: no
    dictionary is shared between two places of the tree, and none is its
    own ancestor. Keys are unique within a dictionary. *)
Inductive repr (h : heap) : value → tree → gset nat → Prop :=
  | repr_leaf x : repr h (VLeaf x) (Leaf x) ∅
  | repr_dict l d es F :
      h !! l = Some d →
      repr_items h d es F →
      l ∉ F →
      repr h (VDict l) (Map es) ({[l]} ∪ F)
with repr_items (h : heap) : dict → entries → gset nat → Prop :=
  | repr_nil : repr_items h [] [] ∅
  | repr_cons k v t d es F1 F2 :
      repr h v t F1 →
      repr_items h d es F2 →
      F1 ## F2 →
      dict_get k d = None →
      repr_items h ((k, v) :: d) ((k, t) :: es) (F1 ∪ F2).

Scheme repr_mut := Induction for repr Sort Prop
  with repr_items_mut := Induction for repr_items Sort Prop.
Combined Scheme repr_mutind from repr_mut, repr_items_mut.

(** ** The merge, on trees

    What [merge_dicts] computes, read off the trees that its arguments
    unfold to: the tree of [a] when the call ends, and, when the call ends
    by raising, the keys from the root down to the conflict, which the
    message of the [LookupError] joins with dots. *)

(** [x == y] for two nested values that are not both mappings. *)
Definition scalar_eq (x y : tree) : bool :=
  match x, y with
  | Leaf x, Leaf y => leaf_eq x y
  | _, _ => false
  end.

Section merge_entries.
Variable rec : list string → entries → tree → option (list string) * entries.
Variable raise_conflicts : bool.

Definition merge_entry (path : list string) (ea : entries) (k : string)
      (tb : tree) : option (list string) * entries :=
    match dict_get k ea with
    | Some ta =>
        match ta, tb with
        | Map ea', Map _ =>
            let (err, r) := rec (path ++ [k]) ea' tb in
            (err, dict_set k (Map r) ea)
        | _, _ =>
            if scalar_eq ta tb then (None, ea)
            else if raise_conflicts then (Some (path ++ [k]), ea)
            else (None, dict_set k tb ea)
        end
    | None => (None, dict_set k tb ea)
    end.

Fixpoint merge_entries (path : list string) (ea eb : entries)
    : option (list string) * entries :=
    match eb with
    | [] => (None, ea)
    | (k, tb) :: eb' =>
        match merge_entry path ea k tb with
        | (None, ea') => merge_entries path ea' eb'
        | (Some p, ea') => (Some p, ea')
        end
    end.
End merge_entries.

Fixpoint tree_merge (raise_conflicts : bool) (path : list string)
    (ea : entries) (tb : tree) {struct tb} : option (list string) * entries :=
  match tb with
  | Leaf _ => (None, ea)
  | Map eb => merge_entries (tree_merge raise_conflicts) raise_conflicts path ea eb
  end.

(** The value at the end of a path of keys. *)
Fixpoint subtree (p : list string) (t : tree) : option tree :=
  match p with
  | [] => Some t
  | k :: p' =>
      match t with
      | Map es =>
          match dict_get k es with
          | Some t' => subtree p' t'
          | None => None
          end
      | Leaf _ => None
      end
  end.

Definition is_map (t : tree) : bool :=
  match t with Map _ => true | Leaf _ => false end.

(** [conflict ta tb p]: the path [p] leads, in both trees and through
    mappings only, to two values that are not both mappings and do not
    compare equal. *)
Inductive conflict : tree → tree → list string → Prop :=
  | conflict_here ea eb k ta tb :
      dict_get k ea = Some ta →
      dict_get k eb = Some tb →
      is_map ta && is_map tb = false →
      scalar_eq ta tb = false →
      conflict (Map ea) (Map eb) [k]
  | conflict_below ea eb k ea' eb' p :
      dict_get k ea = Some (Map ea') →
      dict_get k eb = Some (Map eb') →
      conflict (Map ea') (Map eb') p →
      conflict (Map ea) (Map eb) (k :: p).

(** Keys are unique in every mapping of the tree. *)
Fixpoint wf_tree (t : tree) : Prop :=
  match t with
  | Leaf _ => True
  | Map es =>
      NoDup (dict_keys es) ∧
      (fix all (es : entries) : Prop :=
         match es with
         | [] => True
         | (_, t') :: es' => wf_tree t' ∧ all es'
         end) es
  end.

(** ** format_instance_name

    The instance records are dictionaries that the function only reads,
    so they are taken as nested values. *)

Inductive lookup_exn : Type :=
  | NameKeyError
  | AttributeError.

(** [bool(x)] *)
Definition truthy (t : tree) : bool :=
  match t with
  | Leaf LNone => false
  | Leaf (LBool b) => b
  | Leaf (LInt z) => negb (z =? 0)%Z
  | Leaf (LStr s) => negb (String.eqb s "")
  | Map es => match es with [] => false | _ => true end
  end.

(** The search loop: the first instance whose ['name'] is [name]. *)
Fixpoint find_instance (name : string) (instances : list entries)
  : lookup_exn + option entries :=
  match instances with
  | [] => inr None
  | instance :: rest =>
      match dict_get "name" instance with
      | None => inl NameKeyError
      | Some v =>
          if scalar_eq v (Leaf (LStr name)) then inr (Some instance)
          else find_instance name rest
      end
  end.

Definition format_instance_name (name platform : string)
    (instances : list entries) : lookup_exn + option string :=
  match find_instance name instances with
  | inl e => inl e
  | inr None => inr None
  | inr (Some working_instance) =>
      match dict_get "options" working_instance with
      | None | Some (Leaf LNone) => inr (Some name)
      | Some (Leaf _) => inl AttributeError
      | Some (Map options) =>
          match dict_get "append_platform_to_hostname" options with
          | Some v =>
              if truthy v then inr (Some (name +:+ "-" +:+ platform))
              else inr (Some name)
          | None => inr (Some name)
          end
      end
  end.

(** * Properties *)

(** ** Dictionary operations *)

Section dict_facts.
Context {V : Type}.
Implicit Types (d : list (string * V)) (k : string) (v : V).

Lemma dict_get_set_eq k v d : dict_get k (dict_set k v d) = Some v.
  Proof.
    induction d as [|[k' v'] d IH]; simpl.
    - by rewrite String.eqb_refl.
    - destruct (String.eqb_spec k k') as [->|Hne]; simpl.
      + by rewrite String.eqb_refl.
      + by destruct (String.eqb_spec k k').
  Qed.

Lemma dict_get_set_ne k k' v d :
    k ≠ k' → dict_get k' (dict_set k v d) = dict_get k' d.
  Proof.
    intros Hne. induction d as [|[k1 v1] d IH]; simpl.
    - destruct (String.eqb_spec k' k); congruence.
    - destruct (String.eqb_spec k k1) as [->|Hk]; simpl.
      + destruct (String.eqb_spec k' k1); congruence.
      + by destruct (String.eqb_spec k' k1).
  Qed.

Lemma dict_set_absent k v d :
    dict_get k d = None → dict_set k v d = d ++ [(k, v)].
  Proof.
    induction d as [|[k' v'] d IH]; simpl; [done|].
    destruct (String.eqb_spec k k'); [done|].
    intros H. by rewrite IH.
  Qed.

Lemma dict_get_None k d : dict_get k d = None ↔ k ∉ dict_keys d.
  Proof.
    induction d as [|[k' v'] d IH]; simpl.
    - split; [intros _; apply not_elem_of_nil|done].
    - rewrite not_elem_of_cons.
      destruct (String.eqb_spec k k'); split; try done; naive_solver.
  Qed.

Lemma dict_get_Some_keys k v d : dict_get k d = Some v → k ∈ dict_keys d.
  Proof.
    intros H. destruct (decide (k ∈ dict_keys d)) as [|Hn]; [done|].
    apply dict_get_None in Hn. congruence.
  Qed.

Lemma dict_keys_set_present k v d :
    is_Some (dict_get k d) → dict_keys (dict_set k v d) = dict_keys d.
  Proof.
    induction d as [|[k' v'] d IH]; simpl.
    - by intros [? ?].
    - destruct (String.eqb_spec k k'); simpl; [done|].
      intros H. by rewrite IH.
  Qed.

Lemma dict_length_set_present k v d :
    is_Some (dict_get k d) → length (dict_set k v d) = length d.
  Proof.
    intros H. rewrite <- !(length_map fst).
    change (map fst ?x) with (dict_keys x). by rewrite dict_keys_set_present.
  Qed.

Lemma dict_get_app_l k d d' :
    is_Some (dict_get k d) → dict_get k (d ++ d') = dict_get k d.
  Proof.
    induction d as [|[k' v'] d IH]; simpl.
    - by intros [? ?].
    - destruct (String.eqb_spec k k'); [done|]. apply IH.
  Qed.

Lemma dict_get_app_r k d d' :
    dict_get k d = None → dict_get k (d ++ d') = dict_get k d'.
  Proof.
    induction d as [|[k' v'] d IH]; simpl; [done|].
    destruct (String.eqb_spec k k'); [done|]. apply IH.
  Qed.

Lemma dict_set_same k v d : dict_get k d = Some v → dict_set k v d = d.
  Proof.
    induction d as [|[k' v'] d IH]; simpl; [done|].
    destruct (String.eqb_spec k k'); [congruence|].
    intros H. by rewrite IH.
  Qed.

Lemma dict_set_set k v v' d : dict_set k v (dict_set k v' d) = dict_set k v d.
  Proof.
    induction d as [|[k1 v1] d IH]; simpl.
    - by rewrite String.eqb_refl.
    - destruct (String.eqb_spec k k1) as [->|Hne]; simpl.
      + by rewrite String.eqb_refl.
      + destruct (String.eqb_spec k k1); [done|]. by rewrite IH.
  Qed.
End dict_facts.

(** ** The representation predicate *)

Lemma repr_bounded h :
  (∀ v t F, repr h v t F → ∀ l, l ∈ F → l < length h) ∧
  (∀ d es F, repr_items h d es F → ∀ l, l ∈ F → l < length h).
Proof.
  apply repr_mutind.
  - intros x l Hl. set_solver.
  - intros l d es F Hd _ IH Hl l' Hl'.
    apply elem_of_union in Hl' as [Hl'|Hl'].
    + apply elem_of_singleton in Hl' as ->. by eapply lookup_lt_Some.
    + by apply IH.
  - intros l Hl. set_solver.
  - intros k v t d es F1 F2 _ IH1 _ IH2 _ _ l Hl.
    apply elem_of_union in Hl as [Hl|Hl]; auto.
Qed.

(** The predicate reads the store at the footprint only. *)
Lemma repr_frame h h' :
  (∀ v t F, repr h v t F → (∀ l, l ∈ F → h' !! l = h !! l) → repr h' v t F) ∧
  (∀ d es F, repr_items h d es F →
     (∀ l, l ∈ F → h' !! l = h !! l) → repr_items h' d es F).
Proof.
  apply repr_mutind.
  - intros x _. constructor.
  - intros l d es F Hd _ IH Hl Hfr. eapply repr_dict; [|apply IH|done].
    + rewrite Hfr; [done|set_solver].
    + intros l' Hl'. apply Hfr. set_solver.
  - intros _. constructor.
  - intros k v t d es F1 F2 _ IH1 _ IH2 Hdisj Hk Hfr. constructor; [| |done|done].
    + apply IH1. intros l Hl. apply Hfr. set_solver.
    + apply IH2. intros l Hl. apply Hfr. set_solver.
Qed.

(** A value unfolds to one tree, over one footprint. *)
Lemma repr_functional h :
  (∀ v t F, repr h v t F → ∀ t' F', repr h v t' F' → t = t' ∧ F = F') ∧
  (∀ d es F, repr_items h d es F →
     ∀ es' F', repr_items h d es' F' → es = es' ∧ F = F').
Proof.
  apply repr_mutind.
  - intros x t' F' H. by inversion H.
  - intros l d es F Hd _ IH Hl t' F' H.
    inversion H as [|l0 d0 es0 F0 Hd0 Hit0 Hl0]; subst.
    assert (d0 = d) as -> by congruence.
    destruct (IH _ _ Hit0) as [-> ->]. done.
  - intros es' F' H. by inversion H.
  - intros k v t d es F1 F2 _ IH1 _ IH2 _ _ es' F' H.
    inversion H as [|k0 v0 t0 d0 es0 Fa Fb Hr0 Hit0 Hdj0 Hk0]; subst.
    destruct (IH1 _ _ Hr0) as [-> ->]. destruct (IH2 _ _ Hit0) as [-> ->]. done.
Qed.

Lemma repr_items_keys h d es F :
  repr_items h d es F → dict_keys d = dict_keys es.
Proof. induction 1; simpl; congruence. Qed.

Lemma repr_items_get_None h d es F k :
  repr_items h d es F → dict_get k d = None ↔ dict_get k es = None.
Proof.
  intros H. rewrite !dict_get_None. by rewrite (repr_items_keys _ _ _ _ H).
Qed.

Lemma repr_items_length h d es F :
  repr_items h d es F → length d = length es.
Proof. induction 1; simpl; congruence. Qed.

Lemma repr_items_NoDup h d es F :
  repr_items h d es F → NoDup (dict_keys d).
Proof.
  induction 1; simpl; constructor; [|done]. by apply dict_get_None.
Qed.

Lemma repr_items_eq h d es F F' :
  repr_items h d es F → F = F' → repr_items h d es F'.
Proof. by intros H <-. Qed.

Lemma repr_eq h v t F F' : repr h v t F → F = F' → repr h v t F'.
Proof. by intros H <-. Qed.

(** Reading an entry of a dictionary, and what replacing it takes. *)
Lemma repr_items_get h d es F k v :
  repr_items h d es F →
  dict_get k d = Some v →
  ∃ t Fk Fr,
    dict_get k es = Some t ∧ repr h v t Fk ∧ Fk ## Fr ∧ F = Fk ∪ Fr ∧
    ∀ h' v' t' Fk',
      (∀ l, l ∈ Fr → h' !! l = h !! l) →
      repr h' v' t' Fk' →
      Fk' ## Fr →
      repr_items h' (dict_set k v' d) (dict_set k t' es) (Fk' ∪ Fr).
Proof.
  intros H. revert v. induction H as [|k0 v0 t0 d es F1 F2 Hv Hd IH Hdisj Hk0];
    intros v; simpl; [done|].
  destruct (String.eqb_spec k k0) as [->|Hne].
  - intros [= <-]. exists t0, F1, F2. repeat split; try done.
    intros h' v' t' Fk' Hfr Hv' Hd'. constructor; try done.
    by apply (proj2 (repr_frame h h')).
  - intros Hget. destruct (IH _ Hget) as (t & Fk & Fr & Hes & Hr & Hdj & -> & Hupd).
    exists t, Fk, (F1 ∪ Fr). repeat split; try done.
    + set_solver.
    + set_solver.
    + intros h' v' t' Fk' Hfr Hv' Hd'.
      eapply repr_items_eq.
      * constructor.
        -- apply (proj1 (repr_frame h h')); [exact Hv|].
           intros l Hl. apply Hfr. set_solver.
        -- apply (Hupd h' v' t' Fk'); [|done|set_solver].
           intros l Hl. apply Hfr. set_solver.
        -- set_solver.
        -- rewrite dict_get_set_ne; done.
      * set_solver.
Qed.

Lemma repr_items_add h d es F k v t Fk :
  repr_items h d es F →
  dict_get k d = None →
  repr h v t Fk →
  Fk ## F →
  repr_items h (dict_set k v d) (dict_set k t es) (F ∪ Fk).
Proof.
  intros H. induction H as [|k0 v0 t0 d es F1 F2 Hv Hd IH Hdisj Hk0];
    simpl; intros Hget Hr Hdj.
  - eapply repr_items_eq; [constructor; [exact Hr|constructor|set_solver|done]|].
    set_solver.
  - destruct (String.eqb_spec k k0) as [->|Hne]; [done|].
    eapply repr_items_eq.
    + constructor; [exact Hv|apply IH; [done|done|set_solver]|set_solver|].
      rewrite dict_get_set_ne; done.
    + set_solver.
Qed.

(** The footprint of an entry lies within that of the dictionary. *)
Lemma repr_items_entry h d es F k v t Fk :
  repr_items h d es F → dict_get k d = Some v → repr h v t Fk →
  dict_get k es = Some t ∧ Fk ⊆ F.
Proof.
  intros H Hget Hr.
  destruct (repr_items_get _ _ _ _ _ _ H Hget) as (t' & Fk' & Fr & Hes & Hr' & _ & -> & _).
  destruct (proj1 (repr_functional h) _ _ _ Hr _ _ Hr') as [-> ->].
  split; [done|set_solver].
Qed.

Lemma tree_height_Map es : tree_height (Map es) = S (entries_height es).
Proof.
  unfold entries_height. simpl. f_equal. f_equal.
  apply map_ext. by intros [? ?].
Qed.

Lemma entries_height_cons k t es :
  entries_height ((k, t) :: es) = tree_height t `max` entries_height es.
Proof. done. Qed.

Lemma entries_height_get k t es :
  dict_get k es = Some t → tree_height t ≤ entries_height es.
Proof.
  induction es as [|[k' t'] es IH]; simpl; [done|].
  rewrite entries_height_cons.
  destruct (String.eqb_spec k k').
  - intros [= ->]. lia.
  - intros H. apply IH in H. lia.
Qed.

Lemma tree_height_pos t : 0 < tree_height t.
Proof. destruct t; simpl; lia. Qed.

(** ** copy.deepcopy builds a new tree *)

(** On a value that unfolds to a tree, and with a memo that knows none of
    its dictionaries, the copy returns a value that unfolds to the same
    tree over dictionaries that did not exist before; the dictionaries
    that existed are left as they were. *)
Definition deepcopy_spec (fuel : nat) : Prop :=
  ∀ (x : value) (m : list (nat * nat)) (h : list (list (string * value))) t F,
    repr h x t F →
    (∀ l, l ∈ F → memo_get l m = None) →
    tree_height t ≤ fuel →
    ∃ x' m' h' F',
      deepcopy fuel x m h = Returned (x', m') h' ∧
      repr h' x' t F' ∧
      (∀ l, l ∈ F' → length h ≤ l) ∧
      (∀ l, l < length h → h' !! l = h !! l) ∧
      length h ≤ length h' ∧
      (∀ l, l ∉ F → memo_get l m' = memo_get l m).

Lemma deepcopy_items_spec fuel :
  deepcopy_spec fuel →
  ∀ (items : list (string * value)) es Fr y (m : list (nat * nat))
    (h : list (list (string * value))) dy ey Fy n0,
    repr_items h items es Fr →
    entries_height es ≤ fuel →
    (∀ l, l ∈ Fr → memo_get l m = None) →
    (∀ l, l ∈ Fr → l < n0) →
    n0 ≤ y →
    h !! y = Some dy →
    repr_items h dy ey Fy →
    y ∉ Fy →
    (∀ l, l ∈ Fy → n0 ≤ l) →
    (∀ k, k ∈ dict_keys items → dict_get k dy = None) →
    ∃ m' h' dy' Fy',
      deepcopy_items (deepcopy fuel) y items m h = Returned m' h' ∧
      h' !! y = Some dy' ∧
      repr_items h' dy' (ey ++ es) Fy' ∧
      y ∉ Fy' ∧
      (∀ l, l ∈ Fy' → n0 ≤ l) ∧
      (∀ l, l < n0 → h' !! l = h !! l) ∧
      length h ≤ length h' ∧
      (∀ l, l ∉ Fr → memo_get l m' = memo_get l m).
Proof.
  intros Hrec items.
  induction items as [|[k v] items IH];
    intros es Fr y m h dy ey Fy n0 Hitems Hht Hmemo Hlow Hy Hdy Hey HyFy Hfresh Hkeys;
    inversion Hitems as [|k0 v0 t d0 es0 F1 F2 Hv Hrest Hdisj Hk]; subst.
  - exists m, h, dy, Fy. rewrite app_nil_r. repeat split; auto.
  - rewrite entries_height_cons in Hht.
    destruct (Hrec v m h t F1 Hv) as (v' & m1 & h1 & F1' & Hrun & Hv' & Hnew & Hold & Hlen & Hm1);
      [intros l Hl; apply Hmemo; set_solver|lia|].
    assert (Hylt : y < length h) by (by eapply lookup_lt_Some).
    assert (Hbound := proj2 (repr_bounded h) _ _ _ Hey).
    set (h2 := <[y := dict_set k v' dy]> h1).
    assert (Hh2 : ∀ l, l ≠ y → h2 !! l = h1 !! l)
      by (intros l Hl; unfold h2; by rewrite list_lookup_insert_ne).
    assert (Hh2y : h2 !! y = Some (dict_set k v' dy))
      by (unfold h2; apply list_lookup_insert_eq; lia).
    assert (Hkdy : dict_get k dy = None) by (apply Hkeys; simpl; left).
    assert (Hkey : dict_get k ey = None)
      by (by apply (repr_items_get_None _ _ _ _ k Hey)).
    destruct (IH es0 F2 y m1 h2 (dict_set k v' dy) (ey ++ [(k, t)]) (Fy ∪ F1') n0)
      as (m' & h' & dy' & Fy' & Hrun' & Hy' & Hrepr' & HyFy' & Hfresh' & Hold' & Hlen' & Hm');
      try done.
    + apply (proj2 (repr_frame h h2)); [done|].
      intros l Hl. assert (l < n0) by (apply Hlow; set_solver).
      rewrite Hh2, Hold by lia. done.
    + lia.
    + intros l Hl. rewrite Hm1; [apply Hmemo|]; set_solver.
    + intros l Hl. apply Hlow. set_solver.
    + rewrite <- (dict_set_absent k t ey Hkey).
      apply repr_items_add; [| done | |].
      * apply (proj2 (repr_frame h h2)); [done|].
        intros l Hl. assert (l < length h) by auto.
        rewrite Hh2, Hold by set_solver. done.
      * apply (proj1 (repr_frame h1 h2)); [done|].
        intros l Hl. apply Hh2. apply Hnew in Hl. lia.
      * intros l Hl1 Hl2. apply Hnew in Hl1. apply Hbound in Hl2. lia.
    + intros Hin. apply elem_of_union in Hin as [Hin|Hin]; [done|].
      apply Hnew in Hin. lia.
    + intros l Hl. apply elem_of_union in Hl as [Hl|Hl]; [auto|].
      apply Hnew in Hl. lia.
    + intros k' Hk'. rewrite dict_get_set_ne.
      * apply Hkeys. simpl. by right.
      * intros ->. apply dict_get_None in Hk. done.
    + exists m', h', dy', Fy'. repeat split; try done.
      * simpl. by rewrite Hrun, Hold, Hdy by lia.
      * by rewrite <- app_assoc in Hrepr'.
      * intros l Hl. rewrite Hold', Hh2, Hold by lia. done.
      * unfold h2 in Hlen'. rewrite length_insert in Hlen'. lia.
      * intros l Hl. rewrite Hm', Hm1 by set_solver. done.
Qed.

Lemma deepcopy_correct fuel : deepcopy_spec fuel.
Proof.
  induction fuel as [|fuel IH]; intros x m h t F Hrepr Hmemo Hht.
  { pose proof (tree_height_pos t). lia. }
  inversion Hrepr as [lf|l d es F0 Hd Hitems Hl]; subst.
  - exists (VLeaf lf), m, h, ∅.
    split_and!; [done|constructor|set_solver|done|done|done].
  - simpl deepcopy. rewrite (Hmemo l) by set_solver. rewrite Hd.
    rewrite tree_height_Map in Hht.
    assert (Hbound := proj2 (repr_bounded h) _ _ _ Hitems).
    destruct (deepcopy_items_spec fuel IH d es F0 (length h) ((l, length h) :: m)
                (h ++ [[]]) [] [] ∅ (length h))
      as (m' & h' & dy' & Fy' & Hrun & Hy & Hrepr' & HyFy & Hfresh & Hold & Hlen & Hm');
      try done.
    + apply (proj2 (repr_frame h (h ++ [[]]))); [done|].
      intros l' Hl'. apply lookup_app_l. auto.
    + lia.
    + intros l' Hl'. simpl.
      destruct (Nat.eqb_spec l' l) as [->|_]; [done|]. apply Hmemo. set_solver.
    + rewrite lookup_app_r by lia. by rewrite Nat.sub_diag.
    + constructor.
    + exists (VDict (length h)), m', h', ({[length h]} ∪ Fy').
      split_and!.
      * by rewrite Hrun.
      * by econstructor.
      * intros l' Hl'. apply elem_of_union in Hl' as [Hl'|Hl']; [|auto].
        apply elem_of_singleton in Hl'. lia.
      * intros l' Hl'. rewrite Hold by done. by apply lookup_app_l.
      * rewrite length_app in Hlen. simpl in Hlen. lia.
      * intros l' Hl'. rewrite Hm' by set_solver. simpl.
        destruct (Nat.eqb_spec l' l) as [->|_]; [set_solver|done].
Qed.

(** ** merge_dicts computes the merge of the trees *)

Lemma repr_items_entries_disjoint h d es F k k' v v' t t' Fk Fk' :
  repr_items h d es F → k ≠ k' →
  dict_get k d = Some v → dict_get k' d = Some v' →
  repr h v t Fk → repr h v' t' Fk' → Fk ## Fk'.
Proof.
  intros H Hne. induction H as [|k0 v0 t0 d es F1 F2 Hv Hd IH Hdisj Hk0]; simpl; [done|].
  destruct (String.eqb_spec k k0) as [->|Hk]; destruct (String.eqb_spec k' k0) as [->|Hk'];
    try done.
  - intros [= <-] Hget' Hr Hr'.
    destruct (proj1 (repr_functional h) _ _ _ Hr _ _ Hv) as [_ ->].
    destruct (repr_items_entry _ _ _ _ _ _ _ _ Hd Hget' Hr') as [_ Hsub]. set_solver.
  - intros Hget [= <-] Hr Hr'.
    destruct (proj1 (repr_functional h) _ _ _ Hr' _ _ Hv) as [_ ->].
    destruct (repr_items_entry _ _ _ _ _ _ _ _ Hd Hget Hr) as [_ Hsub]. set_solver.
Qed.

Lemma py_eq_scalar_eq h av bv ta tb Fa Fb :
  repr h av ta Fa → repr h bv tb Fb → py_eq av bv = scalar_eq ta tb.
Proof. intros Ha Hb. by inversion Ha; inversion Hb. Qed.

(** How a call ends, given what the merge of the trees says. *)
Definition outcome_of {A : Type} (x : A) (err : option (list string))
    (h : list (list (string * value))) : result A :=
  match err with
  | None => Returned x h
  | Some p => Raised (LookupError (conflict_msg p)) h
  end.

(** With a target and a source that unfold to trees over disjoint sets of
    dictionaries, the call ends as the merge of the trees says and leaves
    the target unfolding to the merged tree.  It writes to dictionaries of
    the target only, and the target then consists of dictionaries it had,
    dictionaries of the source and new ones. *)
Definition merge_spec (fuel : nat) : Prop :=
  ∀ rc path a b (h : list (list (string * value))) ea eb Fa Fb,
    repr h (VDict a) (Map ea) Fa →
    repr h (VDict b) (Map eb) Fb →
    Fa ## Fb →
    tree_height (Map eb) ≤ fuel →
    ∃ h' Fa',
      merge_dicts fuel a b rc path h
        = outcome_of a (tree_merge rc path ea (Map eb)).1 h' ∧
      repr h' (VDict a) (Map (tree_merge rc path ea (Map eb)).2) Fa' ∧
      (∀ l, l < length h → l ∉ Fa → h' !! l = h !! l) ∧
      length h ≤ length h' ∧
      (∀ l, l ∈ Fa' → l ∈ Fa ∨ l ∈ Fb ∨ length h ≤ l).

Section merge_loop.
Variable fuel : nat.
Variable rc : bool.
Hypothesis Hrec : merge_spec fuel.

Let rec := fun a' b' => merge_dicts fuel a' b' rc.

Lemma merge_key_spec path a b (h : list (list (string * value)))
      da ea Fe db k bv tb Fb :
    h !! a = Some da →
    repr_items h da ea Fe →
    a ∉ Fe →
    h !! b = Some db →
    dict_get k db = Some bv →
    repr h bv tb Fb →
    Fb ## Fe →
    a ∉ Fb →
    tree_height tb ≤ fuel →
    ∃ h1 da1 Fe1,
      merge_key rec fuel rc a b path k h
        = outcome_of tt (merge_entry (tree_merge rc) rc path ea k tb).1 h1 ∧
      h1 !! a = Some da1 ∧
      repr_items h1 da1 (merge_entry (tree_merge rc) rc path ea k tb).2 Fe1 ∧
      (∀ l, l < length h → l ≠ a →
            (∀ v t F, dict_get k da = Some v → repr h v t F → l ∉ F) →
            h1 !! l = h !! l) ∧
      length h ≤ length h1 ∧
      (∀ l, l ∈ Fe1 → l ∈ Fe ∨ l ∈ Fb ∨ length h ≤ l) ∧
      (∀ k', k' ≠ k → dict_get k' da1 = dict_get k' da) ∧
      (dict_get k da = None →
       ∃ v' F', dict_get k da1 = Some v' ∧ repr h1 v' tb F' ∧
                ∀ l, l ∈ F' → length h ≤ l).
  Proof.
    intros Ha Hda HaFe Hb Hbv Hrb Hdisj HaFb Hht.
    assert (Halt : a < length h) by (by eapply lookup_lt_Some).
    assert (HbndE := proj2 (repr_bounded h) _ _ _ Hda).
    assert (HbndB := proj1 (repr_bounded h) _ _ _ Hrb).
    unfold merge_key, merge_entry. rewrite Ha, Hb, Hbv.
    destruct (dict_get k da) as [av|] eqn:Hav.
    - (* the key exists in both dictionaries *)
      destruct (repr_items_get _ _ _ _ _ _ Hda Hav)
        as (ta & Fk & Fr & Hta & Hra & Hkr & -> & Hupd).
      rewrite Hta.
      assert (Hplain :
        is_map ta && is_map tb = false →
        ∃ h1 da1 Fe1,
          (if py_eq av bv then Returned tt h
           else if rc then Raised (LookupError (conflict_msg (path ++ [k]))) h
           else Returned tt (<[a := dict_set k bv da]> h))
            = outcome_of tt
                (if scalar_eq ta tb then (None, ea)
                 else if rc then (Some (path ++ [k]), ea)
                 else (None, dict_set k tb ea)).1 h1 ∧
          h1 !! a = Some da1 ∧
          repr_items h1 da1
            (if scalar_eq ta tb then (None, ea)
             else if rc then (Some (path ++ [k]), ea)
             else (None, dict_set k tb ea)).2 Fe1 ∧
          (∀ l, l < length h → l ≠ a →
                (∀ v t F, Some av = Some v → repr h v t F → l ∉ F) →
                h1 !! l = h !! l) ∧
          length h ≤ length h1 ∧
          (∀ l, l ∈ Fe1 → l ∈ Fk ∪ Fr ∨ l ∈ Fb ∨ length h ≤ l) ∧
          (∀ k', k' ≠ k → dict_get k' da1 = dict_get k' da) ∧
          (Some av = None →
           ∃ v' F', dict_get k da1 = Some v' ∧ repr h1 v' tb F' ∧
                    ∀ l, l ∈ F' → length h ≤ l)).
      { intros _. rewrite (py_eq_scalar_eq _ _ _ _ _ _ _ Hra Hrb).
        destruct (scalar_eq ta tb); [|destruct rc].
        - exists h, da, (Fk ∪ Fr). split_and!; auto; done.
        - exists h, da, (Fk ∪ Fr). split_and!; auto; done.
        - exists (<[a := dict_set k bv da]> h), (dict_set k bv da), (Fb ∪ Fr).
          split_and!.
          + done.
          + by apply list_lookup_insert_eq.
          + apply Hupd.
            * intros l Hl. apply list_lookup_insert_ne. set_solver.
            * apply (proj1 (repr_frame h _)); [done|].
              intros l Hl. apply list_lookup_insert_ne. set_solver.
            * set_solver.
          + intros l _ Hl _. by apply list_lookup_insert_ne.
          + by rewrite length_insert.
          + set_solver.
          + intros k' Hk'. by apply dict_get_set_ne.
          + done. }
      inversion Hra as [xa|a' da' ea' Fa' Hda' Hitems' Ha']; subst;
        inversion Hrb as [xb|b' db' eb' Fb' Hdb' Hitemsb' Hb']; subst;
        try (by apply Hplain).
      (* both values are dictionaries: the recursive call *)
      destruct (Hrec rc (path ++ [k]) a' b' h ea' eb' _ _ Hra Hrb) as
        (h1 & Fk' & Hrun & Hrepr1 & Hfr1 & Hlen1 & Hincl1); [set_solver|done|].
      unfold rec. rewrite Hrun.
      destruct (tree_merge rc (path ++ [k]) ea' (Map eb')) as [err r] eqn:Hpure.
      simpl in Hrun, Hrepr1. simpl.
      assert (Ha1 : h1 !! a = Some da) by (rewrite Hfr1; [done|done|set_solver]).
      exists h1, da, (Fk' ∪ Fr). split_and!.
      + by destruct err.
      + done.
      + rewrite <- (dict_set_same k (VDict a') da Hav). apply Hupd; [|done|].
        * intros l Hl. apply Hfr1; [apply HbndE|]; set_solver.
        * intros l Hl1 Hl2. destruct (Hincl1 l Hl1) as [?|[?|?]]; [set_solver..|].
          assert (l < length h) by (apply HbndE; set_solver). lia.
      + intros l Hl Hla Hnot. apply Hfr1; [done|]. by eapply Hnot.
      + done.
      + intros l Hl. apply elem_of_union in Hl as [Hl|Hl]; [|set_solver].
        destruct (Hincl1 l Hl) as [?|[?|?]]; set_solver.
      + done.
      + done.
    - (* the key does not exist in A *)
      assert (Hka : dict_get k ea = None)
        by (by apply (repr_items_get_None _ _ _ _ k Hda)).
      rewrite Hka. simpl.
      inversion Hrb as [xb|b' db' eb' Fb' Hdb' Hitemsb' Hb']; subst.
      + exists (<[a := dict_set k (VLeaf xb) da]> h), (dict_set k (VLeaf xb) da), (Fe ∪ ∅).
        split_and!.
        * done.
        * by apply list_lookup_insert_eq.
        * apply repr_items_add; [|done|constructor|set_solver].
          apply (proj2 (repr_frame h _)); [done|].
          intros l Hl. apply list_lookup_insert_ne. set_solver.
        * intros l _ Hl _. by apply list_lookup_insert_ne.
        * by rewrite length_insert.
        * set_solver.
        * intros k' Hk'. by apply dict_get_set_ne.
        * intros _. exists (VLeaf xb), ∅.
          split_and!; [apply dict_get_set_eq|constructor|set_solver].
      + destruct (deepcopy_correct fuel (VDict b') [] h _ _ Hrb)
          as (v' & m' & h1 & F' & Hrun & Hrepr1 & Hnew & Hold & Hlen & _);
          [done|done|].
        rewrite Hrun, Hold, Ha by done.
        exists (<[a := dict_set k v' da]> h1), (dict_set k v' da), (Fe ∪ F').
        split_and!.
        * done.
        * apply list_lookup_insert_eq. lia.
        * apply repr_items_add; [|done| |].
          -- apply (proj2 (repr_frame h _)); [done|].
             intros l Hl. rewrite list_lookup_insert_ne by set_solver.
             apply Hold. auto.
          -- apply (proj1 (repr_frame h1 _)); [done|].
             intros l Hl. apply list_lookup_insert_ne. apply Hnew in Hl. lia.
          -- intros l Hl1 Hl2. apply Hnew in Hl1. apply HbndE in Hl2. lia.
        * intros l Hl Hla _. rewrite list_lookup_insert_ne by done. by apply Hold.
        * rewrite length_insert. lia.
        * intros l Hl. apply elem_of_union in Hl as [Hl|Hl]; [by left|].
          right; right. by apply Hnew.
        * intros k' Hk'. by apply dict_get_set_ne.
        * intros _. exists v', F'.
          split_and!; [apply dict_get_set_eq| |done].
          apply (proj1 (repr_frame h1 _)); [done|].
          intros l Hl. apply list_lookup_insert_ne. apply Hnew in Hl. lia.
  Qed.

  (** The loop, from any of its iterations on.  [P] holds of the
      dictionaries that the rest of the loop must leave alone. *)
Lemma merge_keys_spec (items : list (string * value)) :
    ∀ eb Fb path a b (h : list (list (string * value))) da ea Fe db
      (P : nat → Prop),
      h !! a = Some da →
      repr_items h da ea Fe →
      a ∉ Fe →
      h !! b = Some db →
      (∀ k v, dict_get k items = Some v → dict_get k db = Some v) →
      repr_items h items eb Fb →
      Fb ## Fe →
      a ∉ Fb →
      entries_height eb ≤ fuel →
      P b →
      (∀ l, l ∈ Fb → P l) →
      ¬ P a →
      (∀ l, P l → l < length h) →
      (∀ k v t F, k ∈ dict_keys items → dict_get k da = Some v →
                  repr h v t F → ∀ l, l ∈ F → ¬ P l) →
      ∃ h' da' Fe',
        merge_keys rec fuel rc a b path (length db) (dict_keys items) h
          = outcome_of a (merge_entries (tree_merge rc) rc path ea eb).1 h' ∧
        h' !! a = Some da' ∧
        repr_items h' da' (merge_entries (tree_merge rc) rc path ea eb).2 Fe' ∧
        a ∉ Fe' ∧
        (∀ l, P l → h' !! l = h !! l) ∧
        length h ≤ length h' ∧
        (∀ l, l ∈ Fe' → l ∈ Fe ∨ l ∈ Fb ∨ length h ≤ l) ∧
        (∀ k, k ∉ dict_keys items → dict_get k da' = dict_get k da) ∧
        ((merge_entries (tree_merge rc) rc path ea eb).1 = None →
         ∀ k tb, dict_get k eb = Some tb → dict_get k da = None →
           ∃ v' F', dict_get k da' = Some v' ∧ repr h' v' tb F' ∧
                    ∀ l, l ∈ F' → length h ≤ l).
  Proof.
    induction items as [|[k bv] items IH];
      intros eb Fb path a b h da ea Fe db P Ha Hda HaFe Hb Hsuf Hitems Hdisj HaFb
        Hht HPb HPFb HPa HPlt Hprist;
      inversion Hitems as [|k0 v0 tb d0 eb0 F1 F2 Hv Hrest HF12 Hk]; subst; simpl.
    - rewrite Hb, Nat.eqb_refl. simpl.
      exists h, da, Fe. split_and!; auto. done.
    - rewrite Hb, Nat.eqb_refl. simpl.
      rewrite entries_height_cons in Hht.
      assert (Halt : a < length h) by (by eapply lookup_lt_Some).
      assert (HbndE := proj2 (repr_bounded h) _ _ _ Hda).
      assert (HbndB := proj2 (repr_bounded h) _ _ _ Hitems).
      destruct (merge_key_spec path a b h da ea Fe db k bv tb F1)
        as (h1 & da1 & Fe1 & Hrun & Ha1 & Hda1 & Hfr1 & Hlen1 & Hincl1 & Hother & Hins);
        try done.
      { apply Hsuf. simpl. by rewrite String.eqb_refl. }
      { set_solver. }
      { set_solver. }
      { lia. }
      rewrite Hrun.
      assert (HP1 : ∀ l, P l → h1 !! l = h !! l).
      { intros l Hl. apply Hfr1; [by apply HPlt|by intros ->|].
        intros v t F Hget Hr HlF.
        eapply (Hprist k v t F); [simpl; left|done|done|exact HlF|done]. }
      assert (HaFe1 : a ∉ Fe1).
      { intros Hin. destruct (Hincl1 a Hin) as [?|[?|?]]; [done|set_solver|lia]. }
      assert (Hkeys1 : ∀ k', k' ∉ k :: dict_keys items →
                             dict_get k' da1 = dict_get k' da).
      { intros k' Hk'. apply Hother. intros ->. apply Hk'. left. }
      destruct (merge_entry (tree_merge rc) rc path ea k tb) as [[p|] ea1] eqn:Hstep;
        simpl in Hrun, Hda1 |- *.
      + (* the body raised *)
        exists h1, da1, Fe1. split_and!; try done.
        intros l Hl. destruct (Hincl1 l Hl) as [?|[?|?]]; [by left| |by right; right].
        right; left. set_solver.
      + (* what the body has inserted, if anything, is to be left alone too *)
        assert (∃ Fnew : gset nat,
                  (∀ l, l ∈ Fnew → length h ≤ l ∧ l < length h1) ∧
                  (dict_get k da = None →
                   ∃ v', dict_get k da1 = Some v' ∧ repr h1 v' tb Fnew))
          as (Fnew & HFnew & Hnew).
        { destruct (dict_get k da) as [av|] eqn:Hav.
          - exists ∅. split; [set_solver|done].
          - destruct (Hins eq_refl) as (v' & F' & Hg & Hr & Hfresh).
            exists F'. split; [|by eauto].
            intros l Hl. split; [by apply Hfresh|].
            by apply (proj1 (repr_bounded h1) _ _ _ Hr). }
        destruct (IH eb0 F2 path a b h1 da1 ea1 Fe1 db (λ l, P l ∨ l ∈ Fnew))
          as (h' & da' & Fe' & Hrun' & Ha' & Hda' & HaFe' & HP' & Hlen' & Hincl'
              & Hkeys' & Hins');
          try done.
        * rewrite HP1; done.
        * intros k' v Hget. apply Hsuf. simpl.
          destruct (String.eqb_spec k' k) as [->|_]; [congruence|done].
        * apply (proj2 (repr_frame h h1)); [done|].
          intros l Hl. apply HP1, HPFb. set_solver.
        * intros l Hl2 Hl1. destruct (Hincl1 l Hl1) as [?|[?|?]]; [set_solver..|].
          assert (l < length h) by (apply HbndB; set_solver). lia.
        * set_solver.
        * lia.
        * by left.
        * intros l Hl. left. apply HPFb. set_solver.
        * intros [?|Hin]; [done|]. apply HFnew in Hin. lia.
        * intros l [Hl|Hl]; [apply HPlt in Hl; lia|]. apply HFnew in Hl. lia.
        * intros k' v t F Hk' Hget Hr.
          assert (Hne : k' ≠ k).
          { intros ->. apply dict_get_None in Hk. done. }
          rewrite Hother in Hget by done.
          destruct (repr_items_get _ _ _ _ _ _ Hda Hget)
            as (t0 & F0 & Fr0 & _ & Hr0 & _ & HFe & _).
          assert (Hr1 : repr h1 v t0 F0).
          { apply (proj1 (repr_frame h h1)); [done|].
            intros l Hl. apply Hfr1.
            - apply HbndE. set_solver.
            - intros ->. set_solver.
            - intros vk tk Fk Hgk Hrk.
              pose proof (repr_items_entries_disjoint _ _ _ _ _ _ _ _ _ _ _ _
                            Hda Hne Hget Hgk Hr0 Hrk). set_solver. }
          destruct (proj1 (repr_functional h1) _ _ _ Hr _ _ Hr1) as [_ ->].
          intros l Hl [HPl|Hl'].
          -- eapply (Hprist k' v t0 F0); [simpl; by right|done..].
          -- apply HFnew in Hl'. assert (l < length h) by (apply HbndE; set_solver).
             lia.
        * exists h', da', Fe'. split_and!; try done.
          -- intros l Hl. rewrite HP' by (by left). by apply HP1.
          -- lia.
          -- intros l Hl. destruct (Hincl' l Hl) as [Hl1|[?|?]].
             ++ destruct (Hincl1 l Hl1) as [?|[?|?]]; [by left| |by right; right].
                right; left. set_solver.
             ++ right; left. set_solver.
             ++ right; right. lia.
          -- intros k' Hk'. apply not_elem_of_cons in Hk' as [Hne Hk'].
             rewrite Hkeys' by done. by apply Hother.
          -- intros Hok k' tb' Hget Hnone.
             destruct (String.eqb_spec k' k) as [->|Hne].
             ++ injection Hget as <-.
                destruct (Hnew Hnone) as (v' & Hg1 & Hr1).
                exists v', Fnew. split_and!.
                ** rewrite Hkeys'; [done|]. by apply dict_get_None.
                ** apply (proj1 (repr_frame h1 h')); [done|].
                   intros l Hl. apply HP'. by right.
                ** intros l Hl. apply HFnew in Hl. lia.
             ++ destruct (Hins' Hok k' tb' Hget) as (v' & F' & Hg' & Hr' & Hfresh').
                { by rewrite Hother. }
                exists v', F'. split_and!; [done|done|].
                intros l Hl. apply Hfresh' in Hl. lia.
  Qed.
End merge_loop.

Lemma merge_dicts_refines fuel : merge_spec fuel.
Proof.
  induction fuel as [|fuel IH];
    intros rc path a b h ea eb Fa Fb Hra Hrb Hdisj Hht.
  { rewrite tree_height_Map in Hht. lia. }
  inversion Hra as [|a0 da ea0 Fe Hda Hitems HaFe]; subst.
  inversion Hrb as [|b0 db eb0 Fbe Hdb Hitemsb HbFb]; subst.
  rewrite tree_height_Map in Hht.
  assert (HbndA := proj1 (repr_bounded h) _ _ _ Hra).
  assert (HbndB := proj1 (repr_bounded h) _ _ _ Hrb).
  destruct (merge_keys_spec fuel rc IH db eb Fbe path a b h da ea Fe db
              (λ l, l < length h ∧ l ∉ {[a]} ∪ Fe))
    as (h' & da' & Fe' & Hrun & Ha' & Hda' & HaFe' & HP & Hlen & Hincl & _ & _);
    try done.
  - set_solver.
  - set_solver.
  - lia.
  - split; [apply HbndB|]; set_solver.
  - intros l Hl. split; [apply HbndB|]; set_solver.
  - intros [_ Hn]. set_solver.
  - by intros l [? _].
  - intros k v t F _ Hget Hr l Hl [_ Hn].
    destruct (repr_items_entry _ _ _ _ _ _ _ _ Hitems Hget Hr) as [_ Hsub].
    set_solver.
  - exists h', ({[a]} ∪ Fe'). simpl merge_dicts. rewrite Hda, Hdb.
    split_and!.
    + exact Hrun.
    + simpl. by econstructor.
    + intros l Hl Hn. by apply HP.
    + done.
    + intros l Hl. apply elem_of_union in Hl as [Hl|Hl]; [left; set_solver|].
      destruct (Hincl l Hl) as [?|[?|?]]; set_solver.
Qed.

(** ** The merge of trees *)

Lemma wf_tree_Map es :
  wf_tree (Map es) ↔ NoDup (dict_keys es) ∧ Forall (λ e, wf_tree e.2) es.
Proof.
  simpl. apply and_iff_compat_l.
  induction es as [|[k t] es IH]; simpl.
  - split; [constructor|done].
  - rewrite Forall_cons, IH. done.
Qed.

Lemma wf_tree_get es k t :
  wf_tree (Map es) → dict_get k es = Some t → wf_tree t.
Proof.
  rewrite wf_tree_Map. intros [_ Hall].
  induction Hall as [|[k' t'] es Ht _ IH]; simpl; [done|].
  destruct (String.eqb_spec k k'); [by intros [= <-]|done].
Qed.

Lemma repr_wf h :
  (∀ v t F, repr h v t F → wf_tree t) ∧
  (∀ d es F, repr_items h d es F → wf_tree (Map es)).
Proof.
  apply repr_mutind.
  - done.
  - done.
  - apply wf_tree_Map. split; constructor.
  - intros k v t d es F1 F2 _ Ht Hd Hes _ Hk.
    apply wf_tree_Map in Hes as [Hnd Hall]. apply wf_tree_Map. split.
    + simpl. constructor; [|done].
      rewrite <- (repr_items_keys _ _ _ _ Hd). by apply dict_get_None.
    + by constructor.
Qed.

(** The value that one step of the loop leaves under the key, when it
    does not raise: what [a[key]] was before the step, or nothing, against
    [b[key]]. *)
Definition merged_value (rec : list string → list (string * tree) → tree →
                               option (list string) * list (string * tree))
    (path : list string) (k : string) (o : option tree) (tb : tree) : tree :=
  match o with
  | None => tb
  | Some ta =>
      match ta, tb with
      | Map ea', Map _ => Map (rec (path ++ [k]) ea' tb).2
      | _, _ => if scalar_eq ta tb then ta else tb
      end
  end.

Section merge_entries_facts.
Variable rec : list string → list (string * tree) → tree →
                 option (list string) * list (string * tree).
Variable rc : bool.

Lemma merge_entry_other path ea k tb k' :
    k' ≠ k → dict_get k' (merge_entry rec rc path ea k tb).2 = dict_get k' ea.
  Proof.
    intros Hne. unfold merge_entry.
    destruct (dict_get k ea) as [ta|]; simpl; [|by apply dict_get_set_ne].
    destruct ta, tb; try destruct (rec _ _ _); try destruct (scalar_eq _ _);
      try destruct rc; simpl; try done; by apply dict_get_set_ne.
  Qed.

Lemma merge_entries_other path eb : ∀ ea k,
    k ∉ dict_keys eb →
    dict_get k (merge_entries rec rc path ea eb).2 = dict_get k ea.
  Proof.
    induction eb as [|[k0 tb] eb IH]; intros ea k Hk; simpl; [done|].
    apply not_elem_of_cons in Hk as [Hne Hk].
    pose proof (merge_entry_other path ea k0 tb k Hne) as Hstep.
    destruct (merge_entry rec rc path ea k0 tb) as [[p|] ea1]; simpl in *; [done|].
    by rewrite IH.
  Qed.

  (** The entry of a key that the step has handled without raising. *)
Lemma merge_entry_value path ea k tb :
    (merge_entry rec rc path ea k tb).1 = None →
    dict_get k (merge_entry rec rc path ea k tb).2
      = Some (merged_value rec path k (dict_get k ea) tb).
  Proof.
    unfold merge_entry, merged_value.
    destruct (dict_get k ea) as [ta|] eqn:Hget; simpl; [|by rewrite dict_get_set_eq].
    destruct ta, tb; try destruct (rec _ _ _); try destruct (scalar_eq _ _);
      try destruct rc; simpl; try done; intros _; by rewrite dict_get_set_eq.
  Qed.

Lemma merge_entries_value path eb : ∀ ea k tb,
    NoDup (dict_keys eb) →
    dict_get k eb = Some tb →
    (merge_entries rec rc path ea eb).1 = None →
    dict_get k (merge_entries rec rc path ea eb).2
      = Some (merged_value rec path k (dict_get k ea) tb).
  Proof.
    induction eb as [|[k0 tb0] eb IH]; intros ea k tb Hnd Hget; simpl in *; [done|].
    apply NoDup_cons in Hnd as [Hk0 Hnd].
    pose proof (merge_entry_value path ea k0 tb0) as Hval.
    pose proof (merge_entry_other path ea k0 tb0 k) as Hoth.
    destruct (merge_entry rec rc path ea k0 tb0) as [[p|] ea1]; simpl in *; [done|].
    intros Hok. destruct (String.eqb_spec k k0) as [->|Hne].
    - injection Hget as <-. rewrite merge_entries_other by done. by apply Hval.
    - rewrite (IH ea1 k tb Hnd Hget Hok), Hoth by done. done.
  Qed.
End merge_entries_facts.

(** Without [raise_conflicts] the merge does not raise. *)
Lemma tree_merge_overwrite_ok n : ∀ tb path ea,
  tree_height tb ≤ n → (tree_merge false path ea tb).1 = None.
Proof.
  induction n as [|n IH]; intros tb path ea Hht.
  { pose proof (tree_height_pos tb). lia. }
  destruct tb as [x|eb]; [done|]. rewrite tree_height_Map in Hht. simpl.
  assert (Hn : entries_height eb ≤ n) by lia. clear Hht.
  revert ea. induction eb as [|[k tb] eb IHeb]; intros ea; simpl; [done|].
  rewrite entries_height_cons in Hn.
  assert (Hstep : (merge_entry (tree_merge false) false path ea k tb).1 = None).
  { unfold merge_entry. destruct (dict_get k ea) as [ta|]; [|done].
    destruct ta as [xa|ea'], tb as [xb|eb']; try (by destruct (scalar_eq _ _)).
    specialize (IH (Map eb') (path ++ [k]) ea').
    destruct (tree_merge false (path ++ [k]) ea' (Map eb')); simpl in *.
    apply IH. lia. }
  destruct (merge_entry (tree_merge false) false path ea k tb) as [[p|] ea1];
    simpl in *; [done|].
  apply IHeb. lia.
Qed.

Lemma dict_get_elem {V : Type} (d : list (string * V)) k v :
  NoDup (dict_keys d) → (k, v) ∈ d → dict_get k d = Some v.
Proof.
  induction d as [|[k' v'] d IH]; simpl; intros Hnd Hin.
  - by apply elem_of_nil in Hin.
  - apply NoDup_cons in Hnd as [Hk' Hnd].
    apply elem_of_cons in Hin as [[= -> ->]|Hin].
    + by rewrite String.eqb_refl.
    + destruct (String.eqb_spec k k') as [->|_]; [|by apply IH].
      exfalso. apply Hk'. apply (list_elem_of_fmap_2 fst _ _ Hin).
Qed.

Lemma dict_get_elem_inv {V : Type} (d : list (string * V)) k v :
  dict_get k d = Some v → (k, v) ∈ d.
Proof.
  induction d as [|[k' v'] d IH]; simpl; [done|].
  destruct (String.eqb_spec k k') as [->|_].
  - intros [= ->]. left.
  - intros H. right. by apply IH.
Qed.

Lemma entries_height_elem k t es :
  (k, t) ∈ es → tree_height t ≤ entries_height es.
Proof.
  induction es as [|[k' t'] es IH]; intros Hin.
  - by apply elem_of_nil in Hin.
  - rewrite entries_height_cons.
    apply elem_of_cons in Hin as [[= -> ->]|Hin]; [lia|]. apply IH in Hin. lia.
Qed.

Lemma wf_tree_elem es k t : wf_tree (Map es) → (k, t) ∈ es → wf_tree t.
Proof.
  rewrite wf_tree_Map. intros [_ Hall] Hin.
  by apply (proj1 (Forall_forall _ _) Hall (k, t)).
Qed.

(** A loop whose every step leaves the target as it is. *)
Lemma merge_entries_stable rec rc path r eb :
  (∀ k tb, (k, tb) ∈ eb → merge_entry rec rc path r k tb = (None, r)) →
  merge_entries rec rc path r eb = (None, r).
Proof.
  induction eb as [|[k tb] eb IH]; intros Hall; simpl; [done|].
  rewrite (Hall k tb) by left. apply IH. intros k' tb' Hin. apply Hall. by right.
Qed.

(** Merging a tree into itself changes nothing. *)
Lemma tree_merge_self n : ∀ es path,
  tree_height (Map es) ≤ n → wf_tree (Map es) →
  tree_merge false path es (Map es) = (None, es).
Proof.
  induction n as [|n IH]; intros es path Hht Hwf.
  { rewrite tree_height_Map in Hht. lia. }
  rewrite tree_height_Map in Hht. simpl.
  apply merge_entries_stable. intros k tb Hin.
  assert (Hget : dict_get k es = Some tb)
    by (apply dict_get_elem; [by apply wf_tree_Map in Hwf as [? _]|done]).
  pose proof (entries_height_elem _ _ _ Hin) as Hh.
  unfold merge_entry. rewrite Hget.
  destruct tb as [x|eb'].
  - simpl. destruct (leaf_eq x x); [done|]. by rewrite dict_set_same.
  - rewrite IH; [|lia|by eapply wf_tree_elem]. by rewrite dict_set_same.
Qed.

(** An entry that already holds the value of the source stays as it is. *)
Lemma merge_entry_same path r k tb :
  wf_tree tb → dict_get k r = Some tb →
  merge_entry (tree_merge false) false path r k tb = (None, r).
Proof.
  intros Hwf Hget. unfold merge_entry. rewrite Hget.
  destruct tb as [x|eb'].
  - simpl. destruct (leaf_eq x x); [done|]. by rewrite dict_set_same.
  - rewrite (tree_merge_self (tree_height (Map eb'))) by done.
    by rewrite dict_set_same.
Qed.

(** Merging the source a second time changes nothing. *)
Lemma tree_merge_idempotent n : ∀ tb path ea,
  tree_height tb ≤ n → wf_tree tb →
  tree_merge false path (tree_merge false path ea tb).2 tb
    = (None, (tree_merge false path ea tb).2).
Proof.
  induction n as [|n IH]; intros tb path ea Hht Hwf.
  { pose proof (tree_height_pos tb). lia. }
  destruct tb as [x|eb]; [done|].
  pose proof (tree_merge_overwrite_ok _ (Map eb) path ea (Nat.le_refl _)) as Hok.
  rewrite tree_height_Map in Hht. simpl in *.
  set (r := (merge_entries (tree_merge false) false path ea eb).2) in *.
  apply merge_entries_stable. intros k tb Hin.
  assert (Hnd : NoDup (dict_keys eb)) by (by apply wf_tree_Map in Hwf as [? _]).
  assert (Hget : dict_get k eb = Some tb) by (by apply dict_get_elem).
  assert (Hwfk : wf_tree tb) by (by eapply wf_tree_elem).
  pose proof (entries_height_elem _ _ _ Hin) as Hh.
  pose proof (merge_entries_value (tree_merge false) false path eb ea k tb
                Hnd Hget Hok) as Hr.
  fold r in Hr. unfold merged_value in Hr.
  destruct (dict_get k ea) as [ta|]; [|by apply merge_entry_same].
  destruct ta as [xa|ea'], tb as [xb|eb'];
    try (destruct (scalar_eq _ _) eqn:Heq; [|by apply merge_entry_same];
         unfold merge_entry; rewrite Hr; simpl in *; try rewrite Heq; done).
  unfold merge_entry. rewrite Hr.
  rewrite (IH (Map eb') (path ++ [k]) ea') by (done || lia).
  by rewrite dict_set_same.
Qed.

(** ** Conflicts *)

Lemma conflict_nonempty ta tb p : conflict ta tb p → p ≠ [].
Proof. by destruct 1. Qed.

Lemma conflict_head_key ea eb k p :
  conflict (Map ea) (Map eb) (k :: p) → k ∈ dict_keys eb.
Proof.
  intros H. inversion H; subst; by eapply dict_get_Some_keys.
Qed.

(** A conflict under a key depends on the two entries of that key only. *)
Lemma conflict_change ea eb ea1 eb1 k p :
  conflict (Map ea) (Map eb) (k :: p) →
  dict_get k ea1 = dict_get k ea →
  dict_get k eb1 = dict_get k eb →
  conflict (Map ea1) (Map eb1) (k :: p).
Proof.
  intros H Ha Hb. inversion H; subst.
  - eapply conflict_here; [by rewrite Ha|by rewrite Hb|done|done].
  - eapply conflict_below; [by rewrite Ha|by rewrite Hb|done].
Qed.

Lemma conflict_is_cons ta tb p : conflict ta tb p → ∃ k p', p = k :: p'.
Proof. destruct 1; eauto. Qed.

Lemma subtree_cons k q es :
  subtree (k :: q) (Map es)
    = match dict_get k es with Some t => subtree q t | None => None end.
Proof. done. Qed.

(** What a failed merge has left alone, [p] being the path of the
    conflict: the target's value at [p], and, at every level of [p], the
    target's values under the keys that the source lists after the one on
    [p]. *)
Definition kept (ea r : list (string * tree)) (tb : tree) (p : list string)
  : Prop :=
  subtree p (Map r) = subtree p (Map ea) ∧
  ∀ q k rest eq pre post tk k',
    p = q ++ k :: rest →
    subtree q tb = Some (Map eq) →
    eq = pre ++ (k, tk) :: post →
    k' ∈ dict_keys post →
    subtree (q ++ [k']) (Map r) = subtree (q ++ [k']) (Map ea).

(** What the merge that raises on conflicts returns: the path of a
    conflict between the two trees, below [path], if it fails, and
    otherwise there is no conflict. *)
Definition raise_ok (path : list string) (ea : list (string * tree))
    (tb : tree) (res : option (list string) * list (string * tree)) : Prop :=
  match res.1 with
  | Some fp => ∃ p, fp = path ++ p ∧ conflict (Map ea) tb p ∧ kept ea res.2 tb p
  | None => ∀ p, ¬ conflict (Map ea) tb p
  end.

Lemma NoDup_keys_head_split {V : Type} (k : string) (v tk : V)
    (d pre post : list (string * V)) :
  k ∉ dict_keys d →
  (k, v) :: d = pre ++ (k, tk) :: post → pre = [] ∧ post = d.
Proof.
  intros Hk Heq. destruct pre as [|[k1 v1] pre]; simpl in Heq.
  - by injection Heq as _ ->.
  - injection Heq as -> -> ->. exfalso. apply Hk.
    unfold dict_keys. rewrite map_app. simpl.
    apply elem_of_app. right. left.
Qed.

Lemma keys_tail_split {V : Type} (k0 k : string) (v0 tk : V)
    (d pre post : list (string * V)) :
  k ≠ k0 →
  (k0, v0) :: d = pre ++ (k, tk) :: post →
  ∃ pre', pre = (k0, v0) :: pre' ∧ d = pre' ++ (k, tk) :: post.
Proof.
  intros Hne Heq. destruct pre as [|[k1 v1] pre]; simpl in Heq.
  - injection Heq as -> _ _. done.
  - injection Heq as -> -> ->. eauto.
Qed.

Section raise_step.
Variable n : nat.
Hypothesis IH : ∀ tb path ea,
    tree_height tb ≤ n → wf_tree tb →
    raise_ok path ea tb (tree_merge true path ea tb).

  (** One step of the loop, on the first key of the source. *)
Lemma merge_entry_raise_ok path ea k0 t0 eb :
    tree_height t0 ≤ n → wf_tree t0 → k0 ∉ dict_keys eb →
    match (merge_entry (tree_merge true) true path ea k0 t0).1 with
    | Some fp =>
        ∃ p, fp = path ++ p ∧
             conflict (Map ea) (Map ((k0, t0) :: eb)) p ∧
             kept ea (merge_entry (tree_merge true) true path ea k0 t0).2
               (Map ((k0, t0) :: eb)) p
    | None => ∀ p', ¬ conflict (Map ea) (Map ((k0, t0) :: eb)) (k0 :: p')
    end.
  Proof.
    intros Hht Hwf Hk0.
    assert (Hhead : dict_get k0 ((k0, t0) :: eb) = Some t0)
      by (simpl; by rewrite String.eqb_refl).
    unfold merge_entry.
    destruct (dict_get k0 ea) as [ta|] eqn:Hta; simpl.
    2:{ intros p' Hc. inversion Hc; congruence. }
    assert (Hplain :
      is_map ta && is_map t0 = false →
      match
        (if scalar_eq ta t0 then (None, ea)
         else (Some (path ++ [k0]), ea)).1
      with
      | Some fp =>
          ∃ p, fp = path ++ p ∧
               conflict (Map ea) (Map ((k0, t0) :: eb)) p ∧
               kept ea (if scalar_eq ta t0 then (None, ea)
                        else (Some (path ++ [k0]), ea)).2
                 (Map ((k0, t0) :: eb)) p
      | None => ∀ p', ¬ conflict (Map ea) (Map ((k0, t0) :: eb)) (k0 :: p')
      end).
    { intros Hnm. destruct (scalar_eq ta t0) eqn:Heq; simpl.
      - intros p' Hc. inversion Hc; subst.
        + congruence.
        + assert (ta = Map ea') as -> by congruence.
          assert (t0 = Map eb') as -> by congruence. done.
      - exists [k0]. split_and!; [done|by eapply conflict_here|by split]. }
    destruct ta as [xa|ea'], t0 as [xb|eb']; try (by apply Hplain).
    specialize (IH (Map eb') (path ++ [k0]) ea' Hht Hwf). unfold raise_ok in IH.
    destruct (tree_merge true (path ++ [k0]) ea' (Map eb')) as [[fp|] r'];
      simpl in IH |- *.
    - destruct IH as (p' & -> & Hc & Hsub & Hsib).
      exists (k0 :: p'). unfold kept. split_and!.
      + by rewrite <- app_assoc.
      + by eapply conflict_below.
      + rewrite !subtree_cons, dict_get_set_eq, Hta. done.
      + intros q k rest eq pre post tk k' Hp Hq Heq Hk'.
        destruct q as [|k1 q]; simpl in Hp; injection Hp as Hhd Hp.
        * subst k p'. simpl in Hq. injection Hq as <-.
          apply NoDup_keys_head_split in Heq as [-> ->]; [|done].
          simpl. rewrite dict_get_set_ne; [done|].
          intros ->. done.
        * subst k1 p'. rewrite subtree_cons, Hhead in Hq.
          change ((k0 :: q) ++ [k']) with (k0 :: (q ++ [k'])).
          rewrite !subtree_cons, dict_get_set_eq, Hta.
          by eapply (Hsib q k rest eq pre post tk k').
    - intros p' Hc. inversion Hc; subst.
      + assert (ta = Map ea') as -> by congruence.
        assert (tb = Map eb') as -> by congruence. done.
      + assert (ea'0 = ea') as -> by congruence.
        assert (eb'0 = eb') as -> by congruence. by eapply IH.
  Qed.

Lemma merge_entries_raise_ok path eb : ∀ ea,
    entries_height eb ≤ n → wf_tree (Map eb) →
    raise_ok path ea (Map eb) (merge_entries (tree_merge true) true path ea eb).
  Proof.
    induction eb as [|[k0 t0] eb IHeb]; intros ea Hht Hwf.
    { intros p Hc. inversion Hc; done. }
    rewrite entries_height_cons in Hht.
    apply wf_tree_Map in Hwf as [Hnd Hall].
    apply NoDup_cons in Hnd as [Hk0 Hnd]. apply Forall_cons in Hall as [Hwf0 Hall].
    assert (Hwfeb : wf_tree (Map eb)) by (by apply wf_tree_Map).
    pose proof (merge_entry_raise_ok path ea k0 t0 eb) as Hstep.
    pose proof (merge_entry_other (tree_merge true) true path ea k0 t0) as Hoth.
    unfold raise_ok. simpl.
    destruct (merge_entry (tree_merge true) true path ea k0 t0) as [[fp|] ea1];
      simpl in Hstep, Hoth |- *.
    { apply Hstep; [lia|done|done]. }
    specialize (Hstep ltac:(lia) Hwf0 Hk0).
    specialize (IHeb ea1 ltac:(lia) Hwfeb). unfold raise_ok in IHeb.
    assert (Hne : ∀ k, k ∈ dict_keys eb → k ≠ k0) by (by intros k Hk ->).
    assert (Htail : ∀ k, k ≠ k0 →
              dict_get k ((k0, t0) :: eb) = dict_get k eb).
    { intros k Hk. simpl. by destruct (String.eqb_spec k k0). }
    destruct (merge_entries (tree_merge true) true path ea1 eb) as [[fp|] r];
      simpl in IHeb |- *.
    - destruct IHeb as (p & -> & Hc & Hsub & Hsib).
      destruct (conflict_is_cons _ _ _ Hc) as (k & p' & ->).
      pose proof (Hne k (conflict_head_key _ _ _ _ Hc)) as Hk.
      exists (k :: p'). unfold kept. split_and!.
      + done.
      + eapply conflict_change; [exact Hc|by rewrite Hoth|by apply Htail].
      + rewrite subtree_cons in Hsub |- *. rewrite Hsub, subtree_cons.
        by rewrite Hoth.
      + intros q k1 rest eq pre post tk k' Hp Hq Heq Hk'.
        destruct q as [|k2 q]; simpl in Hp; injection Hp as Hhd Hp.
        * subst k1 p'. simpl in Hq. injection Hq as <-.
          apply keys_tail_split in Heq as (pre' & -> & Heq); [|done].
          rewrite (Hsib [] k rest eb pre' post tk k' eq_refl eq_refl Heq Hk').
          simpl. rewrite Hoth; [done|]. apply Hne. rewrite Heq.
          unfold dict_keys. rewrite map_app. apply elem_of_app. right.
          simpl. by right.
        * subst k2 p'. rewrite subtree_cons, Htail in Hq by done.
          rewrite (Hsib (k :: q) k1 rest eq pre post tk k' eq_refl Hq Heq Hk').
          change ((k :: q) ++ [k']) with (k :: (q ++ [k'])).
          rewrite !subtree_cons. by rewrite Hoth.
    - intros p Hc. destruct (conflict_is_cons _ _ _ Hc) as (k & p' & ->).
      destruct (decide (k = k0)) as [->|Hk]; [by eapply Hstep|].
      eapply IHeb. eapply conflict_change; [exact Hc|by apply Hoth|].
      symmetry. by apply Htail.
  Qed.
End raise_step.

Lemma tree_merge_raise_ok n : ∀ tb path ea,
  tree_height tb ≤ n → wf_tree tb →
  raise_ok path ea tb (tree_merge true path ea tb).
Proof.
  induction n as [|n IH]; intros tb path ea Hht Hwf.
  { pose proof (tree_height_pos tb). lia. }
  destruct tb as [x|eb].
  - intros p Hc. inversion Hc.
  - rewrite tree_height_Map in Hht. simpl.
    apply (merge_entries_raise_ok n IH); [lia|done].
Qed.

(** ** The whole call *)

Lemma repr_items_get_tree h d es F k t :
  repr_items h d es F → dict_get k es = Some t →
  ∃ v Fk, dict_get k d = Some v ∧ repr h v t Fk ∧ Fk ⊆ F.
Proof.
  induction 1 as [|k0 v0 t0 d es F1 F2 Hv Hd IH Hdisj Hk0]; simpl; [done|].
  destruct (String.eqb_spec k k0) as [->|Hne].
  - intros [= <-]. exists v0, F1. split_and!; [done|done|set_solver].
  - intros Hget. destruct (IH Hget) as (v & Fk & ? & ? & ?).
    exists v, Fk. split_and!; [done|done|set_solver].
Qed.

(** The call, from a target and a source that unfold to trees over
    disjoint sets of dictionaries: how it ends, what the target and the
    source then unfold to, and where the values come from that the target
    did not have a key for. *)
Lemma merge_dicts_run fuel rc path a b (h : list (list (string * value)))
    ea eb Fa Fb :
  repr h (VDict a) (Map ea) Fa →
  repr h (VDict b) (Map eb) Fb →
  Fa ## Fb →
  tree_height (Map eb) ≤ fuel →
  ∃ h' da' Fe',
    merge_dicts fuel a b rc path h
      = outcome_of a (tree_merge rc path ea (Map eb)).1 h' ∧
    h' !! a = Some da' ∧
    repr_items h' da' (tree_merge rc path ea (Map eb)).2 Fe' ∧
    a ∉ Fe' ∧
    repr h' (VDict b) (Map eb) Fb ∧
    (∀ l, l < length h → l ∉ Fa → h' !! l = h !! l) ∧
    length h ≤ length h' ∧
    ((tree_merge rc path ea (Map eb)).1 = None →
     ∀ k tb, dict_get k eb = Some tb → dict_get k ea = None →
       ∃ v' F', dict_get k da' = Some v' ∧ repr h' v' tb F' ∧
                ∀ l, l ∈ F' → length h ≤ l).
Proof.
  intros Hra Hrb Hdisj Hht.
  destruct fuel as [|fuel]; [rewrite tree_height_Map in Hht; lia|].
  inversion Hra as [|a0 da ea0 Fe Hda Hitems HaFe]; subst.
  inversion Hrb as [|b0 db eb0 Fbe Hdb Hitemsb HbFb]; subst.
  rewrite tree_height_Map in Hht.
  assert (HbndB := proj1 (repr_bounded h) _ _ _ Hrb).
  destruct (merge_keys_spec fuel rc (merge_dicts_refines fuel) db eb Fbe path a b h
              da ea Fe db (λ l, l < length h ∧ l ∉ {[a]} ∪ Fe))
    as (h' & da' & Fe' & Hrun & Ha' & Hda' & HaFe' & HP & Hlen & Hincl & _ & Hins);
    try done.
  - set_solver.
  - set_solver.
  - lia.
  - split; [apply HbndB|]; set_solver.
  - intros l Hl. split; [apply HbndB|]; set_solver.
  - intros [_ Hn]. set_solver.
  - by intros l [? _].
  - intros k v t F _ Hget Hr l Hl [_ Hn].
    destruct (repr_items_entry _ _ _ _ _ _ _ _ Hitems Hget Hr) as [_ Hsub].
    set_solver.
  - exists h', da', Fe'. simpl merge_dicts. rewrite Hda, Hdb.
    split_and!; try done.
    + apply (proj1 (repr_frame h h')); [done|].
      intros l Hl. apply HP. split; [by apply HbndB|set_solver].
    + intros l Hl Hn. by apply HP.
    + intros Hok k tb Hget Hnone. apply (Hins Hok k tb Hget).
      by apply (repr_items_get_None _ _ _ _ k Hitems).
Qed.

Ltac solve_repr :=
  lazymatch goal with
  | |- repr _ (VLeaf _) _ _ => apply repr_leaf
  | |- repr _ (VDict _) _ _ =>
      eapply repr_dict; [reflexivity | solve_repr | set_solver]
  | |- repr_items _ [] _ _ => apply repr_nil
  | |- repr_items _ (_ :: _) _ _ =>
      eapply repr_cons; [solve_repr | solve_repr | set_solver | reflexivity]
  end.

(** ** Stores for the examples *)

(** [a = {"x": 1}] at 0 and [b = {"x": {"y": 1}}] at 1. *)
Definition ex_alias : list (list (string * value)) :=
  [ [("x", VLeaf (LInt 1))]; [("x", VDict 2)]; [("y", VLeaf (LInt 1))] ].

(** [a = {"x": {"y": 1}}] at 0 and [b = {"x": {"y": 2}}] at 2. *)
Definition ex_nested : list (list (string * value)) :=
  [ [("x", VDict 1)]; [("y", VLeaf (LInt 1))];
    [("x", VDict 3)]; [("y", VLeaf (LInt 2))] ].

(** [a = {"k": 1}] at 0 and, at 1, a dictionary [b] with the items
    [("n", 5)] and [("k", 2)], which its iteration meets in this order. *)
Definition ex_partial : list (list (string * value)) :=
  [ [("k", VLeaf (LInt 1))]; [("n", VLeaf (LInt 5)); ("k", VLeaf (LInt 2))] ].

(** [a = {}] at 0 and [b = {"x": {"y": 1}, "z": None}] at 1. *)
Definition ex_insert : list (list (string * value)) :=
  [ []; [("x", VDict 2); ("z", VLeaf LNone)]; [("y", VLeaf (LInt 1))] ].

(** [a = {"k": 1, "m": {}}] at 0 and [b = {"k": True, "m": {"n": 2}}] at 2. *)
Definition ex_equal : list (list (string * value)) :=
  [ [("k", VLeaf (LInt 1)); ("m", VDict 1)]; [];
    [("k", VLeaf (LBool true)); ("m", VDict 3)]; [("n", VLeaf (LInt 2))] ].

(** [d[k] = v] on the dictionary at [l]. *)
Definition py_setitem (l : nat) (k : string) (v : value)
    (h : list (list (string * value))) : list (list (string * value)) :=
  match h !! l with
  | Some d => <[l := dict_set k v d]> h
  | None => h
  end.

(** [d[k]] on the dictionary at [l]. *)
Definition py_getitem (l : nat) (k : string)
    (h : list (list (string * value))) : option value :=
  match h !! l with
  | Some d => dict_get k d
  | None => None
  end.

(** * The claims *)

(** C1, where the code departs from it: with [a = {"x": 1}] and
    [b = {"x": {"y": 1}}], the merge that overwrites makes [a["x"]] the very
    dictionary that [b["x"]] is, so that [a["x"]["y"] = 2] after the merge
    changes [b["x"]["y"]] to 2. *)
Theorem merge_dicts_overwrite_aliases_source :
  ∃ h',
    merge_dicts 2 0 1 false [] ex_alias = Returned 0 h' ∧
    py_getitem 0 "x" h' = Some (VDict 2) ∧
    py_getitem 1 "x" h' = Some (VDict 2) ∧
    py_getitem 2 "y" h' = Some (VLeaf (LInt 1)) ∧
    py_getitem 2 "y" (py_setitem 2 "y" (VLeaf (LInt 2)) h')
      = Some (VLeaf (LInt 2)).
Proof. eexists. split_and!; reflexivity. Qed.



(** C3: when the two trees hold, under a key [k], two values that are not
    both mappings and are not equal, the merge that overwrites returns,
    and the target then holds under [k] what the source holds under it,
    whole, be it a mapping or not. *)
Theorem merge_dicts_overwrite_takes_source fuel path a b
    (h : list (list (string * value))) ea eb Fa Fb k ta tb :
  repr h (VDict a) (Map ea) Fa →
  repr h (VDict b) (Map eb) Fb →
  Fa ## Fb →
  tree_height (Map eb) ≤ fuel →
  dict_get k ea = Some ta →
  dict_get k eb = Some tb →
  is_map ta && is_map tb = false →
  scalar_eq ta tb = false →
  ∃ h' da' v' F',
    merge_dicts fuel a b false path h = Returned a h' ∧
    h' !! a = Some da' ∧
    dict_get k da' = Some v' ∧
    repr h' v' tb F'.
Proof.
  intros Hra Hrb Hdisj Hht Hta Htb Hmap Hneq.
  pose proof (proj1 (repr_wf h) _ _ _ Hrb) as Hwf.
  apply wf_tree_Map in Hwf as [Hnd _].
  destruct (merge_dicts_run fuel false path a b h ea eb Fa Fb)
    as (h' & da' & Fe' & Hrun & Ha' & Hda' & _); try done.
  pose proof (tree_merge_overwrite_ok _ (Map eb) path ea (Nat.le_refl _)) as Hok.
  rewrite Hok in Hrun. simpl in Hok, Hda'.
  pose proof (merge_entries_value (tree_merge false) false path eb ea k tb
                Hnd Htb Hok) as Hr.
  rewrite Hta in Hr. unfold merged_value in Hr.
  assert (Hr' : dict_get k (merge_entries (tree_merge false) false path ea eb).2
                = Some tb).
  { destruct ta, tb; simpl in *; try done; by rewrite Hneq in Hr. }
  destruct (repr_items_get_tree _ _ _ _ _ _ Hda' Hr') as (v' & F' & ? & ? & _).
  by exists h', da', v', F'.
Qed.

Lemma merge_dicts_overwrite_takes_source_witness :
  ∃ h' da' v' F',
    merge_dicts 3 0 1 false [] ex_alias = Returned 0 h' ∧
    h' !! 0 = Some da' ∧
    dict_get "x" da' = Some v' ∧
    repr h' v' (Map [("y", Leaf (LInt 1))]) F'.
Proof.
  apply (merge_dicts_overwrite_takes_source 3 [] 0 1 ex_alias
           [("x", Leaf (LInt 1))] [("x", Map [("y", Leaf (LInt 1))])]
           {[0]} {[1; 2]} "x" (Leaf (LInt 1))).
  - eapply repr_eq; [solve_repr|set_solver].
  - eapply repr_eq; [solve_repr|set_solver].
  - set_solver.
  - vm_compute. lia.
  - reflexivity.
  - reflexivity.
  - reflexivity.
  - reflexivity.
Defined.

(** The entry of a key under which the two trees hold equal values stays,
    however the loop ends. *)
Lemma merge_entries_equal_kept rec rc path eb : ∀ ea k ta tb,
  NoDup (dict_keys eb) →
  dict_get k ea = Some ta →
  dict_get k eb = Some tb →
  is_map ta && is_map tb = false →
  scalar_eq ta tb = true →
  dict_get k (merge_entries rec rc path ea eb).2 = Some ta.
Proof.
  induction eb as [|[k0 t0] eb IH]; intros ea k ta tb Hnd Hta Htb Hmap Heq;
    simpl in *; [done|].
  apply NoDup_cons in Hnd as [Hk0 Hnd].
  destruct (String.eqb_spec k k0) as [->|Hne].
  - injection Htb as ->.
    assert (Hstep : merge_entry rec rc path ea k0 tb = (None, ea)).
    { unfold merge_entry. rewrite Hta.
      destruct ta, tb; simpl in *; try done; by rewrite Heq. }
    rewrite Hstep. by rewrite merge_entries_other.
  - pose proof (merge_entry_other rec rc path ea k0 t0 k Hne) as Hoth.
    destruct (merge_entry rec rc path ea k0 t0) as [[p|] ea1]; simpl in *.
    + by rewrite Hoth.
    + eapply IH; try done. by rewrite Hoth.
Qed.

(** C4: when the two trees hold, under a key [k], two values that are not
    both mappings and are equal, the step of the loop for [k] returns with
    the store as it was, under either policy; and however the whole call
    ends, the target still holds its value under [k], a conflict that the
    call may have raised for being at another path than [k]. *)
Theorem merge_dicts_equal_values_unchanged fuel rc path a b
    (h : list (list (string * value))) ea eb Fa Fb k ta tb :
  repr h (VDict a) (Map ea) Fa →
  repr h (VDict b) (Map eb) Fb →
  Fa ## Fb →
  tree_height (Map eb) ≤ fuel →
  dict_get k ea = Some ta →
  dict_get k eb = Some tb →
  is_map ta && is_map tb = false →
  scalar_eq ta tb = true →
  (∀ rec cf, merge_key rec cf rc a b path k h = Returned tt h) ∧
  ∃ h' da' v' F',
    (merge_dicts fuel a b rc path h = Returned a h' ∨
     ∃ p, merge_dicts fuel a b rc path h
            = Raised (LookupError (conflict_msg (path ++ p))) h' ∧
          rc = true ∧ conflict (Map ea) (Map eb) p ∧ p ≠ [k]) ∧
    h' !! a = Some da' ∧
    dict_get k da' = Some v' ∧
    repr h' v' ta F'.
Proof.
  intros Hra Hrb Hdisj Hht Hta Htb Hmap Heq.
  pose proof (proj1 (repr_wf h) _ _ _ Hrb) as Hwf.
  split.
  - intros rec cf.
    inversion Hra as [|a0 da ea0 Fe Hda Hitems HaFe]; subst.
    inversion Hrb as [|b0 db eb0 Fbe Hdb Hitemsb HbFb]; subst.
    destruct (repr_items_get_tree _ _ _ _ _ _ Hitems Hta) as (av & F1 & Hav & Hr1 & _).
    destruct (repr_items_get_tree _ _ _ _ _ _ Hitemsb Htb) as (bv & F2 & Hbv & Hr2 & _).
    unfold merge_key. rewrite Hda, Hdb, Hbv, Hav.
    pose proof (py_eq_scalar_eq _ _ _ _ _ _ _ Hr1 Hr2) as Hpy. rewrite Heq in Hpy.
    inversion Hr1; inversion Hr2; subst; simpl in *; try done; by rewrite Hpy.
  - destruct (merge_dicts_run fuel rc path a b h ea eb Fa Fb)
      as (h' & da' & Fe' & Hrun & Ha' & Hda' & _); try done.
    assert (Hr : dict_get k (tree_merge rc path ea (Map eb)).2 = Some ta).
    { simpl. eapply merge_entries_equal_kept; try done.
      by apply wf_tree_Map in Hwf as [? _]. }
    destruct (repr_items_get_tree _ _ _ _ _ _ Hda' Hr) as (v' & F' & ? & ? & _).
    exists h', da', v', F'. split_and!; try done.
    destruct rc.
    + pose proof (tree_merge_raise_ok _ (Map eb) path ea (Nat.le_refl _) Hwf) as Hok.
      unfold raise_ok in Hok.
      destruct (tree_merge true path ea (Map eb)) as [[fp|] r]; simpl in *;
        [|by left].
      destruct Hok as (p & -> & Hc & _). right. exists p. split_and!; try done.
      intros ->. inversion Hc; subst.
      * congruence.
      * by eapply conflict_nonempty.
    + rewrite (tree_merge_overwrite_ok _ (Map eb) path ea (Nat.le_refl _)) in Hrun.
      by left.
Qed.

Lemma merge_dicts_equal_values_unchanged_witness :
  (∀ rec cf, merge_key rec cf true 0 2 [] "k" ex_equal = Returned tt ex_equal) ∧
  ∃ h' da' v' F',
    (merge_dicts 3 0 2 true [] ex_equal = Returned 0 h' ∨
     ∃ p, merge_dicts 3 0 2 true [] ex_equal
            = Raised (LookupError (conflict_msg ([] ++ p))) h' ∧
          true = true ∧
          conflict (Map [("k", Leaf (LInt 1)); ("m", Map [])])
                   (Map [("k", Leaf (LBool true));
                         ("m", Map [("n", Leaf (LInt 2))])]) p ∧
          p ≠ ["k"]) ∧
    h' !! 0 = Some da' ∧
    dict_get "k" da' = Some v' ∧
    repr h' v' (Leaf (LInt 1)) F'.
Proof.
  apply (merge_dicts_equal_values_unchanged 3 true [] 0 2 ex_equal
           [("k", Leaf (LInt 1)); ("m", Map [])]
           [("k", Leaf (LBool true)); ("m", Map [("n", Leaf (LInt 2))])]
           {[0; 1]} {[2; 3]} "k" (Leaf (LInt 1)) (Leaf (LBool true))).
  - eapply repr_eq; [solve_repr|set_solver].
  - eapply repr_eq; [solve_repr|set_solver].
  - set_solver.
  - vm_compute. lia.
  - reflexivity.
  - reflexivity.
  - reflexivity.
  - reflexivity.
Defined.

(** C5: when the source holds a value under a key that the target does not
    have, and the call returns, as it always does without
    [raise_conflicts], the target holds under that key a value that
    unfolds to the same tree: the scalar itself if the source holds a
    scalar, and otherwise a dictionary made, with all the dictionaries
    below it, of locations that did not exist before the call, none of
    them a dictionary of the source. *)
Theorem merge_dicts_inserts_absent_key fuel rc path a b
    (h : list (list (string * value))) ea eb Fa Fb k tb :
  repr h (VDict a) (Map ea) Fa →
  repr h (VDict b) (Map eb) Fb →
  Fa ## Fb →
  tree_height (Map eb) ≤ fuel →
  dict_get k ea = None →
  dict_get k eb = Some tb →
  (rc = false → ∃ h', merge_dicts fuel a b rc path h = Returned a h') ∧
  ∀ h', merge_dicts fuel a b rc path h = Returned a h' →
    ∃ da' v' F',
      h' !! a = Some da' ∧
      dict_get k da' = Some v' ∧
      repr h' v' tb F' ∧
      (∀ l, l ∈ F' → length h ≤ l ∧ l ∉ Fb) ∧
      (∀ x, tb = Leaf x → v' = VLeaf x) ∧
      (∀ eb', tb = Map eb' → ∃ l, v' = VDict l ∧ length h ≤ l).
Proof.
  intros Hra Hrb Hdisj Hht Hnone Htb.
  destruct (merge_dicts_run fuel rc path a b h ea eb Fa Fb)
    as (h1 & da1 & Fe1 & Hrun & Ha1 & Hda1 & _ & _ & _ & _ & Hins); try done.
  assert (HbndB := proj1 (repr_bounded h) _ _ _ Hrb).
  split.
  - intros ->. exists h1.
    by rewrite (tree_merge_overwrite_ok _ (Map eb) path ea (Nat.le_refl _)) in Hrun.
  - intros h' Hret. rewrite Hrun in Hret.
    destruct (tree_merge rc path ea (Map eb)).1 eqn:Herr; simpl in Hret; [done|].
    injection Hret as <-.
    destruct (Hins eq_refl k tb Htb Hnone) as (v' & F' & Hv' & Hr' & Hfresh).
    exists da1, v', F'. split_and!; try done.
    + intros l Hl. split; [by apply Hfresh|].
      intros Hin. apply HbndB in Hin. apply Hfresh in Hl. lia.
    + intros x ->. by inversion Hr'.
    + intros eb' ->. inversion Hr'; subst. eexists. split; [done|].
      apply Hfresh. set_solver.
Qed.

Lemma merge_dicts_inserts_absent_key_witness :
  (false = false → ∃ h', merge_dicts 3 0 1 false [] ex_insert = Returned 0 h') ∧
  ∀ h', merge_dicts 3 0 1 false [] ex_insert = Returned 0 h' →
    ∃ da' v' F',
      h' !! 0 = Some da' ∧
      dict_get "x" da' = Some v' ∧
      repr h' v' (Map [("y", Leaf (LInt 1))]) F' ∧
      (∀ l, l ∈ F' → length ex_insert ≤ l ∧ l ∉ ({[1; 2]} : gset nat)) ∧
      (∀ x, Map [("y", Leaf (LInt 1))] = Leaf x → v' = VLeaf x) ∧
      (∀ eb', Map [("y", Leaf (LInt 1))] = Map eb' →
              ∃ l, v' = VDict l ∧ length ex_insert ≤ l).
Proof.
  apply (merge_dicts_inserts_absent_key 3 false [] 0 1 ex_insert
           [] [("x", Map [("y", Leaf (LInt 1))]); ("z", Leaf LNone)]
           {[0]} {[1; 2]} "x").
  - eapply repr_eq; [solve_repr|set_solver].
  - eapply repr_eq; [solve_repr|set_solver].
  - set_solver.
  - vm_compute. lia.
  - reflexivity.
  - reflexivity.
Defined.

Lemma subtree_single k es : subtree [k] (Map es) = dict_get k es.
Proof. simpl. by destruct (dict_get k es). Qed.

(** What a failed merge has done and not undone, [p] being the path of
    the conflict: at every level of [p], under each key that the source
    lists before the one on [p], the target holds what the step of the
    loop for that key makes of the value that the target had there and the
    value of the source. *)
Definition merged_before (path : list string) (ea r : list (string * tree))
    (tb : tree) (p : list string) : Prop :=
  ∀ q k rest eq pre post tk k' tk',
    p = q ++ k :: rest →
    subtree q tb = Some (Map eq) →
    eq = pre ++ (k, tk) :: post →
    (k', tk') ∈ pre →
    subtree (q ++ [k']) (Map r)
      = Some (merged_value (tree_merge true) (path ++ q) k'
                (subtree (q ++ [k']) (Map ea)) tk').

Lemma tree_merge_raise_before n : ∀ tb path ea fp r p,
  tree_height tb ≤ n → wf_tree tb →
  tree_merge true path ea tb = (Some fp, r) →
  fp = path ++ p →
  merged_before path ea r tb p.
Proof.
  induction n as [|n IH]; intros tb path ea fp r p Hht Hwf Hrun Hfp.
  { pose proof (tree_height_pos tb). lia. }
  destruct tb as [x|eb]; [done|].
  rewrite tree_height_Map in Hht. simpl in Hrun.
  assert (Hn : entries_height eb ≤ n) by lia. clear Hht.
  revert ea Hrun. induction eb as [|[k0 t0] eb IHeb]; intros ea Hrun; [done|].
  rewrite entries_height_cons in Hn.
  pose proof Hwf as Hwf'.
  apply wf_tree_Map in Hwf' as [Hnd Hall].
  apply NoDup_cons in Hnd as [Hk0 Hnd]. apply Forall_cons in Hall as [Hwf0 Hall].
  assert (Hwfeb : wf_tree (Map eb)) by (by apply wf_tree_Map).
  assert (Hhead : dict_get k0 ((k0, t0) :: eb) = Some t0)
    by (simpl; by rewrite String.eqb_refl).
  simpl in Hrun.
  pose proof (merge_entry_value (tree_merge true) true path ea k0 t0) as Hval.
  pose proof (merge_entry_other (tree_merge true) true path ea k0 t0) as Hoth.
  destruct (merge_entry (tree_merge true) true path ea k0 t0) as [[fp1|] ea1]
    eqn:Hstep; simpl in Hval, Hoth.
  - (* the step for the first key has raised *)
    injection Hrun as -> ->. subst fp.
    unfold merge_entry in Hstep.
    destruct (dict_get k0 ea) as [ta|] eqn:Hta; [|done].
    assert (Hplain :
      (if scalar_eq ta t0 then (None, ea) else (Some (path ++ [k0]), ea))
        = (Some (path ++ p), r) →
      merged_before path ea r (Map ((k0, t0) :: eb)) p).
    { destruct (scalar_eq ta t0); [done|]. intros [= Hp <-].
      apply app_inv_head in Hp as <-.
      intros q k rest eq pre post tk k' tk' Hq Hsub Heq Hin.
      destruct q as [|k1 q]; simpl in Hq; injection Hq as Hhd Hq.
      - subst k. simpl in Hsub. injection Hsub as <-.
        apply NoDup_keys_head_split in Heq as [-> _]; [|done].
        by apply elem_of_nil in Hin.
      - by destruct q. }
    destruct ta as [xa|ea'], t0 as [xb|eb']; try (apply Hplain; exact Hstep).
    destruct (tree_merge true (path ++ [k0]) ea' (Map eb')) as [e' r'] eqn:Hrec.
    injection Hstep as -> <-.
    pose proof (tree_merge_raise_ok _ (Map eb') (path ++ [k0]) ea'
                  (Nat.le_refl _) Hwf0) as Hok.
    unfold raise_ok in Hok. rewrite Hrec in Hok. simpl in Hok.
    destruct Hok as (p' & Hp' & _).
    assert (p = k0 :: p') as ->.
    { rewrite <- app_assoc in Hp'. by apply app_inv_head in Hp'. }
    pose proof (IH (Map eb') (path ++ [k0]) ea' _ r' p' ltac:(lia) Hwf0 Hrec Hp')
      as Hnested.
    intros q k rest eq pre post tk k' tk' Hq Hsub Heq Hin.
    destruct q as [|k1 q]; simpl in Hq; injection Hq as Hhd Hq.
    + subst k. simpl in Hsub. injection Hsub as <-.
      apply NoDup_keys_head_split in Heq as [-> _]; [|done].
      by apply elem_of_nil in Hin.
    + subst k1 p'. rewrite subtree_cons, Hhead in Hsub.
      change ((k0 :: q) ++ [k']) with (k0 :: (q ++ [k'])).
      rewrite !subtree_cons, dict_get_set_eq, Hta.
      rewrite (Hnested q k rest eq pre post tk k' tk' eq_refl Hsub Heq Hin).
      by rewrite <- app_assoc.
  - (* the step has returned, and a later one raises *)
    specialize (Hval eq_refl).
    pose proof (IHeb Hwfeb ltac:(lia) ea1 Hrun) as Hrest.
    pose proof (tree_merge_raise_ok _ (Map eb) path ea1 (Nat.le_refl _) Hwfeb)
      as Hok.
    unfold raise_ok in Hok. simpl in Hok. rewrite Hrun in Hok. simpl in Hok.
    destruct Hok as (p0 & Hp0 & Hc & _).
    rewrite Hfp in Hp0. apply app_inv_head in Hp0 as <-.
    destruct (conflict_is_cons _ _ _ Hc) as (k & p'' & ->).
    assert (Hk : k ≠ k0).
    { intros ->. by apply conflict_head_key in Hc. }
    assert (Hr0 : dict_get k0 r = dict_get k0 ea1).
    { replace r with (merge_entries (tree_merge true) true path ea1 eb).2
        by (by rewrite Hrun).
      by apply merge_entries_other. }
    intros q k1 rest eq pre post tk k' tk' Hq Hsub Heq Hin.
    destruct q as [|k2 q]; simpl in Hq; injection Hq as Hhd Hq.
    + subst k1 p''. simpl in Hsub. injection Hsub as <-.
      apply keys_tail_split in Heq as (pre' & -> & Heq); [|done].
      simpl app. rewrite app_nil_r, !subtree_single.
      apply elem_of_cons in Hin as [[= -> ->]|Hin].
      * by rewrite Hr0, Hval.
      * pose proof (Hrest [] k rest eb pre' post tk k' tk' eq_refl eq_refl Heq Hin)
          as Hk'.
        simpl app in Hk'. rewrite app_nil_r, !subtree_single in Hk'.
        rewrite Hk'. rewrite Hoth; [done|].
        assert (Hk'eb : k' ∈ dict_keys eb).
        { rewrite Heq. apply (list_elem_of_fmap_2 fst _ (k', tk')).
          apply elem_of_app. by left. }
        intros Heqk. apply Hk0. by rewrite <- Heqk.
    + subst k2 p''.
      assert (Htail : dict_get k ((k0, t0) :: eb) = dict_get k eb).
      { simpl. by destruct (String.eqb_spec k k0). }
      rewrite subtree_cons, Htail in Hsub.
      rewrite (Hrest (k :: q) k1 rest eq pre post tk k' tk' eq_refl Hsub Heq Hin).
      change ((k :: q) ++ [k']) with (k :: (q ++ [k'])).
      rewrite !subtree_cons. by rewrite Hoth.
Qed.

(** C7: when the call raises, it raises for a conflict at some path [p],
    and the store it leaves is the one in which the conflict was found.
    The target still holds, at [p], the value it had, and, at every level
    of [p], the values it had under the keys that the source lists after
    the one on [p]: nothing is written for the conflicting key or after
    it.  And at every level of [p], under the keys that the source lists
    before the one on [p], the target holds what the loop has merged
    there: nothing of it is undone. *)
Theorem merge_dicts_fails_fast fuel path a b
    (h : list (list (string * value))) ea eb Fa Fb :
  repr h (VDict a) (Map ea) Fa →
  repr h (VDict b) (Map eb) Fb →
  Fa ## Fb →
  tree_height (Map eb) ≤ fuel →
  ∀ e h', merge_dicts fuel a b true path h = Raised e h' →
    ∃ p r Fa',
      e = LookupError (conflict_msg (path ++ p)) ∧
      conflict (Map ea) (Map eb) p ∧
      repr h' (VDict a) (Map r) Fa' ∧
      kept ea r (Map eb) p ∧
      merged_before path ea r (Map eb) p.
Proof.
  intros Hra Hrb Hdisj Hht.
  pose proof (proj1 (repr_wf h) _ _ _ Hrb) as Hwf.
  pose proof (tree_merge_raise_ok _ (Map eb) path ea (Nat.le_refl _) Hwf) as Hok.
  destruct (merge_dicts_run fuel true path a b h ea eb Fa Fb)
    as (h1 & da1 & Fe1 & Hrun & Ha1 & Hda1 & HaFe1 & _); try done.
  unfold raise_ok in Hok. rewrite Hrun.
  destruct (tree_merge true path ea (Map eb)) as [[fp|] r] eqn:Hpure;
    simpl in Hok, Hrun, Hda1 |- *; [|done].
  destruct Hok as (p & -> & Hc & Hkept).
  intros e h' [= <- <-]. exists p, r, ({[a]} ∪ Fe1).
  split_and!; try done.
  - by econstructor.
  - by eapply (tree_merge_raise_before _ (Map eb) path ea _ r p (Nat.le_refl _)).
Qed.

Lemma merge_dicts_fails_fast_witness :
  ∃ p r Fa',
    LookupError "Conflict at 'k'" = LookupError (conflict_msg ([] ++ p)) ∧
    conflict (Map [("k", Leaf (LInt 1))])
             (Map [("n", Leaf (LInt 5)); ("k", Leaf (LInt 2))]) p ∧
    repr [ [("k", VLeaf (LInt 1)); ("n", VLeaf (LInt 5))];
           [("n", VLeaf (LInt 5)); ("k", VLeaf (LInt 2))] ]
         (VDict 0) (Map r) Fa' ∧
    kept [("k", Leaf (LInt 1))] r
         (Map [("n", Leaf (LInt 5)); ("k", Leaf (LInt 2))]) p ∧
    merged_before [] [("k", Leaf (LInt 1))] r
         (Map [("n", Leaf (LInt 5)); ("k", Leaf (LInt 2))]) p.
Proof.
  apply (merge_dicts_fails_fast 2 [] 0 1 ex_partial
           [("k", Leaf (LInt 1))]
           [("n", Leaf (LInt 5)); ("k", Leaf (LInt 2))] {[0]} {[1]}
           ltac:(eapply repr_eq; [solve_repr|set_solver])
           ltac:(eapply repr_eq; [solve_repr|set_solver])
           ltac:(set_solver)
           ltac:(vm_compute; lia)
           (LookupError "Conflict at 'k'")
           [ [("k", VLeaf (LInt 1)); ("n", VLeaf (LInt 5))];
             [("n", VLeaf (LInt 5)); ("k", VLeaf (LInt 2))] ]
           eq_refl).
Defined.

(** C8: on a target and a source that unfold to trees, over disjoint sets
    of dictionaries, the call ends, under either policy: there is a depth
    of recursion, the height of the source, from which on the call returns
    the target or raises the [LookupError]. *)
Theorem merge_dicts_terminates rc path a b
    (h : list (list (string * value))) ea eb Fa Fb :
  repr h (VDict a) (Map ea) Fa →
  repr h (VDict b) (Map eb) Fb →
  Fa ## Fb →
  ∀ fuel, tree_height (Map eb) ≤ fuel →
    (∃ h', merge_dicts fuel a b rc path h = Returned a h') ∨
    (∃ msg h', rc = true ∧
               merge_dicts fuel a b rc path h = Raised (LookupError msg) h').
Proof.
  intros Hra Hrb Hdisj fuel Hht.
  destruct (merge_dicts_run fuel rc path a b h ea eb Fa Fb)
    as (h1 & da1 & Fe1 & Hrun & _); try done.
  rewrite Hrun.
  destruct (tree_merge rc path ea (Map eb)).1 as [fp|] eqn:Herr; simpl.
  - right. exists (conflict_msg fp), h1. split; [|done].
    destruct rc; [done|].
    by rewrite (tree_merge_overwrite_ok _ (Map eb) path ea (Nat.le_refl _)) in Herr.
  - left. by exists h1.
Qed.

Lemma merge_dicts_terminates_witness :
  (∃ h', merge_dicts 3 0 2 true [] ex_nested = Returned 0 h') ∨
  (∃ msg h', true = true ∧
             merge_dicts 3 0 2 true [] ex_nested
               = Raised (LookupError msg) h').
Proof.
  apply (merge_dicts_terminates true [] 0 2 ex_nested
           [("x", Map [("y", Leaf (LInt 1))])]
           [("x", Map [("y", Leaf (LInt 2))])] {[0; 1]} {[2; 3]}).
  - eapply repr_eq; [solve_repr|set_solver].
  - eapply repr_eq; [solve_repr|set_solver].
  - set_solver.
  - vm_compute. lia.
Defined.

(** C6: the merge that overwrites returns, leaving the target unfolding to
    some tree; and merging the source once more, into a deep copy of that
    target, returns too and leaves the copy unfolding to that same
    tree. *)
Theorem merge_dicts_idempotent fuel path a b
    (h : list (list (string * value))) ea eb Fa Fb :
  repr h (VDict a) (Map ea) Fa →
  repr h (VDict b) (Map eb) Fb →
  Fa ## Fb →
  tree_height (Map eb) ≤ fuel →
  ∃ h1 r F1,
    merge_dicts fuel a b false path h = Returned a h1 ∧
    repr h1 (VDict a) (Map r) F1 ∧
    ∀ cfuel, tree_height (Map r) ≤ cfuel →
      ∃ c m h2 h3 F3,
        deepcopy cfuel (VDict a) [] h1 = Returned (VDict c, m) h2 ∧
        merge_dicts fuel c b false path h2 = Returned c h3 ∧
        repr h3 (VDict c) (Map r) F3.
Proof.
  intros Hra Hrb Hdisj Hht.
  pose proof (proj1 (repr_wf h) _ _ _ Hrb) as Hwf.
  destruct (merge_dicts_run fuel false path a b h ea eb Fa Fb)
    as (h1 & da1 & Fe1 & Hrun & Ha1 & Hda1 & HaFe1 & Hrb1 & _); try done.
  pose proof (tree_merge_overwrite_ok _ (Map eb) path ea (Nat.le_refl _)) as Hok.
  pose proof (tree_merge_idempotent _ (Map eb) path ea (Nat.le_refl _) Hwf) as Hidem.
  rewrite Hok in Hrun.
  set (r := (tree_merge false path ea (Map eb)).2) in *.
  assert (Hra1 : repr h1 (VDict a) (Map r) ({[a]} ∪ Fe1)) by (by econstructor).
  exists h1, r, ({[a]} ∪ Fe1). split_and!; [done|done|].
  intros cfuel Hcf.
  destruct (deepcopy_correct cfuel (VDict a) [] h1 _ _ Hra1)
    as (x' & m & h2 & F' & Hcopy & Hrc & Hfresh & Hold & Hlen & _); [done|done|].
  inversion Hrc as [|c dc ec Fc Hdc Hitc HcFc]; subst.
  assert (HbndB := proj1 (repr_bounded h1) _ _ _ Hrb1).
  assert (Hrb2 : repr h2 (VDict b) (Map eb) Fb).
  { apply (proj1 (repr_frame h1 h2)); [done|]. intros l Hl. apply Hold. auto. }
  destruct (merge_dicts_run fuel false path c b h2 r eb _ Fb Hrc Hrb2)
    as (h3 & dc3 & Fe3 & Hrun3 & Hc3 & Hdc3 & HcFe3 & _); [|done|].
  { intros l Hl1 Hl2. apply Hfresh in Hl1. apply HbndB in Hl2. lia. }
  rewrite Hidem in Hrun3, Hdc3. simpl in Hrun3, Hdc3.
  exists c, m, h2, h3, ({[c]} ∪ Fe3). split_and!; [done|done|by econstructor].
Qed.

Lemma merge_dicts_idempotent_witness :
  ∃ h1 r F1,
    merge_dicts 3 0 1 false [] ex_insert = Returned 0 h1 ∧
    repr h1 (VDict 0) (Map r) F1 ∧
    ∀ cfuel, tree_height (Map r) ≤ cfuel →
      ∃ c m h2 h3 F3,
        deepcopy cfuel (VDict 0) [] h1 = Returned (VDict c, m) h2 ∧
        merge_dicts 3 c 1 false [] h2 = Returned c h3 ∧
        repr h3 (VDict c) (Map r) F3.
Proof.
  apply (merge_dicts_idempotent 3 [] 0 1 ex_insert
           [] [("x", Map [("y", Leaf (LInt 1))]); ("z", Leaf LNone)]
           {[0]} {[1; 2]}).
  - eapply repr_eq; [solve_repr|set_solver].
  - eapply repr_eq; [solve_repr|set_solver].
  - set_solver.
  - vm_compute. lia.
Defined.

(** ** format_instance_name *)

(** The record has a ['name'], and it is [name]. *)
Definition has_name (name : string) (r : list (string * tree)) : bool :=
  match dict_get "name" r with
  | Some v => scalar_eq v (Leaf (LStr name))
  | None => false
  end.

(** The record has a ['name'], and it is not [name]. *)
Definition other_name (name : string) (r : list (string * tree)) : bool :=
  match dict_get "name" r with
  | Some v => negb (scalar_eq v (Leaf (LStr name)))
  | None => false
  end.

(** The options switch [append_platform_to_hostname] on. *)
Definition appends_platform (options : list (string * tree)) : bool :=
  match dict_get "append_platform_to_hostname" options with
  | Some v => truthy v
  | None => false
  end.

Lemma find_instance_none name instances :
  Forall (λ r, other_name name r = true) instances →
  find_instance name instances = inr None.
Proof.
  induction 1 as [|r rest Hr _ IH]; simpl; [done|].
  unfold other_name in Hr. destruct (dict_get "name" r) as [v|]; [|done].
  by destruct (scalar_eq v (Leaf (LStr name))).
Qed.

Lemma find_instance_first name pre inst post :
  Forall (λ r, other_name name r = true) pre →
  has_name name inst = true →
  find_instance name (pre ++ inst :: post) = inr (Some inst).
Proof.
  intros Hpre Hinst. induction Hpre as [|r rest Hr _ IH]; simpl.
  - unfold has_name in Hinst. destruct (dict_get "name" inst) as [v|]; [|done].
    by rewrite Hinst.
  - unfold other_name in Hr. destruct (dict_get "name" r) as [v|]; [|done].
    by destruct (scalar_eq v (Leaf (LStr name))).
Qed.

Lemma find_instance_key_error name instances : ∀ i r,
  instances !! i = Some r →
  dict_get "name" r = None →
  (∀ j r', j < i → instances !! j = Some r' → has_name name r' = false) →
  find_instance name instances = inl NameKeyError.
Proof.
  induction instances as [|r0 rest IH]; intros i r Hi Hr Hbefore; [done|].
  simpl. destruct (dict_get "name" r0) as [v|] eqn:Hv; [|done].
  destruct i as [|i]; simpl in Hi.
  { injection Hi as ->. congruence. }
  pose proof (Hbefore 0 r0 ltac:(lia) eq_refl) as H0.
  unfold has_name in H0. rewrite Hv in H0. rewrite H0.
  apply (IH i r Hi Hr). intros j r' Hj Hr'.
  apply (Hbefore (S j) r'); [lia|done].
Qed.

Lemma find_instance_total name instances :
  Forall (λ r, is_Some (dict_get "name" r)) instances →
  ∃ o, find_instance name instances = inr o.
Proof.
  induction 1 as [|r rest [v Hv] _ [o IH]]; simpl; [by eauto|].
  rewrite Hv. destruct (scalar_eq v (Leaf (LStr name))); eauto.
Qed.

(** C9: the function takes the first record whose ['name'] is [name], the
    records before it having another ['name']. With no such record, all
    having another ['name'], it returns [None]; when that record has no
    ['options'], or [None] for them, it returns [name]; when its options
    are a mapping that switches [append_platform_to_hostname] on, it
    returns [name + '-' + platform]; and when they are a mapping that does
    not, it returns [name]. *)
Theorem format_instance_name_cases name platform :
  (∀ instances,
     Forall (λ r, other_name name r = true) instances →
     format_instance_name name platform instances = inr None) ∧
  (∀ pre inst post,
     Forall (λ r, other_name name r = true) pre →
     has_name name inst = true →
     (dict_get "options" inst = None ∨
      dict_get "options" inst = Some (Leaf LNone) →
      format_instance_name name platform (pre ++ inst :: post)
        = inr (Some name)) ∧
     (∀ options,
        dict_get "options" inst = Some (Map options) →
        format_instance_name name platform (pre ++ inst :: post)
          = inr (Some (if appends_platform options
                       then name +:+ "-" +:+ platform else name)))).
Proof.
  split.
  - intros instances Hall. unfold format_instance_name.
    by rewrite find_instance_none.
  - intros pre inst post Hpre Hinst. unfold format_instance_name.
    rewrite find_instance_first by done. split.
    + by intros [-> | ->].
    + intros options ->. unfold appends_platform.
      destruct (dict_get "append_platform_to_hostname" options) as [v|]; [|done].
      by destruct (truthy v).
Qed.

Lemma format_instance_name_cases_witness :
  format_instance_name "web" "ec2"
    ([("name", Leaf (LStr "db"))] ::
     [("name", Leaf (LStr "web"));
      ("options", Map [("append_platform_to_hostname", Leaf (LBool true))])] ::
     [])
  = inr (Some "web-ec2").
Proof.
  apply (proj2 (proj2 (format_instance_name_cases "web" "ec2")
                  [ [("name", Leaf (LStr "db"))] ]
                  [("name", Leaf (LStr "web"));
                   ("options",
                    Map [("append_platform_to_hostname", Leaf (LBool true))])]
                  []
                  ltac:(repeat constructor) eq_refl)
           [("append_platform_to_hostname", Leaf (LBool true))] eq_refl).
Defined.

(** Where C9 as it is worded fails: a record of that name whose options
    are a string.  The options do not switch
    [append_platform_to_hostname] on, and yet the call does not return
    [name]: it ends with the [AttributeError]. *)
Lemma format_instance_name_cases_counterexample :
  has_name "web" [("name", Leaf (LStr "web")); ("options", Leaf (LStr "x"))]
    = true ∧
  format_instance_name "web" "ec2"
    [ [("name", Leaf (LStr "web")); ("options", Leaf (LStr "x"))] ]
    = inl AttributeError ∧
  format_instance_name "web" "ec2"
    [ [("name", Leaf (LStr "web")); ("options", Leaf (LStr "x"))] ]
    ≠ inr (Some "web").
Proof. split_and!; done. Qed.

(** C10: the search reads ['name'] of every record it comes to: when a
    record has none, and no record before it has [name] as its ['name'],
    the call ends with the [KeyError]; when every record has a ['name'],
    the search ends without an error and the call does not end with the
    [KeyError]. *)
Theorem format_instance_name_key_error name platform instances :
  (∀ i r,
     instances !! i = Some r →
     dict_get "name" r = None →
     (∀ j r', j < i → instances !! j = Some r' → has_name name r' = false) →
     format_instance_name name platform instances = inl NameKeyError) ∧
  (Forall (λ r, is_Some (dict_get "name" r)) instances →
   (∃ o, find_instance name instances = inr o) ∧
   format_instance_name name platform instances ≠ inl NameKeyError).
Proof.
  split.
  - intros i r Hi Hr Hbefore. unfold format_instance_name.
    by rewrite (find_instance_key_error name instances i r).
  - intros Hall. destruct (find_instance_total name instances Hall) as [o Ho].
    split; [by eauto|]. unfold format_instance_name. rewrite Ho.
    destruct o as [wi|]; [|done].
    destruct (dict_get "options" wi) as [[[]|options]|]; try done.
    destruct (dict_get "append_platform_to_hostname" options) as [v|]; [|done].
    by destruct (truthy v).
Qed.

Lemma format_instance_name_key_error_witness :
  format_instance_name "web" "ec2"
    [ [("name", Leaf (LStr "db"))]; [("options", Leaf LNone)];
      [("name", Leaf (LStr "web"))] ]
  = inl NameKeyError ∧
  format_instance_name "web" "ec2"
    [ [("name", Leaf (LStr "db"))]; [("name", Leaf (LStr "web"))] ]
  ≠ inl NameKeyError.
Proof.
  split.
  - apply (proj1 (format_instance_name_key_error "web" "ec2"
                    [ [("name", Leaf (LStr "db"))]; [("options", Leaf LNone)];
                      [("name", Leaf (LStr "web"))] ])
             1 [("options", Leaf LNone)] eq_refl eq_refl).
    intros j r' Hj Hr'. assert (j = 0) as -> by lia.
    by injection Hr' as <-.
  - apply (proj2 (format_instance_name_key_error "web" "ec2"
                    [ [("name", Leaf (LStr "db"))];
                      [("name", Leaf (LStr "web"))] ])).
    repeat constructor; by eexists.
Defined.

(** * Further properties of merge_dicts *)

(** The source is only read: however the call ends, the source unfolds to
    the tree it had, over the dictionaries it had, and no dictionary
    outside the target's has changed. *)
Theorem merge_dicts_source_unchanged fuel rc path a b
    (h : list (list (string * value))) ea eb Fa Fb :
  repr h (VDict a) (Map ea) Fa →
  repr h (VDict b) (Map eb) Fb →
  Fa ## Fb →
  tree_height (Map eb) ≤ fuel →
  ∃ h',
    (merge_dicts fuel a b rc path h = Returned a h' ∨
     ∃ msg, merge_dicts fuel a b rc path h = Raised (LookupError msg) h') ∧
    repr h' (VDict b) (Map eb) Fb ∧
    (∀ l, l < length h → l ∉ Fa → h' !! l = h !! l) ∧
    length h ≤ length h'.
Proof.
  intros Hra Hrb Hdisj Hht.
  destruct (merge_dicts_run fuel rc path a b h ea eb Fa Fb)
    as (h' & da' & Fe' & Hrun & _ & _ & _ & Hrb' & Hfr & Hlen & _); try done.
  exists h'. split_and!; try done. rewrite Hrun.
  destruct (tree_merge rc path ea (Map eb)).1; simpl; eauto.
Qed.

Lemma merge_dicts_source_unchanged_witness :
  ∃ h',
    (merge_dicts 3 0 1 false [] ex_alias = Returned 0 h' ∨
     ∃ msg, merge_dicts 3 0 1 false [] ex_alias = Raised (LookupError msg) h') ∧
    repr h' (VDict 1) (Map [("x", Map [("y", Leaf (LInt 1))])]) {[1; 2]} ∧
    (∀ l, l < length ex_alias → l ∉ ({[0]} : gset nat) →
          h' !! l = ex_alias !! l) ∧
    length ex_alias ≤ length h'.
Proof.
  apply (merge_dicts_source_unchanged 3 false [] 0 1 ex_alias
           [("x", Leaf (LInt 1))] [("x", Map [("y", Leaf (LInt 1))])]
           {[0]} {[1; 2]}).
  - eapply repr_eq; [solve_repr|set_solver].
  - eapply repr_eq; [solve_repr|set_solver].
  - set_solver.
  - vm_compute. lia.
Defined.

(** A key of the target that the source does not have keeps its value,
    however the call ends. *)
Theorem merge_dicts_keeps_other_keys fuel rc path a b
    (h : list (list (string * value))) ea eb Fa Fb k ta :
  repr h (VDict a) (Map ea) Fa →
  repr h (VDict b) (Map eb) Fb →
  Fa ## Fb →
  tree_height (Map eb) ≤ fuel →
  dict_get k ea = Some ta →
  dict_get k eb = None →
  ∃ h' da' v' F',
    (merge_dicts fuel a b rc path h = Returned a h' ∨
     ∃ msg, merge_dicts fuel a b rc path h = Raised (LookupError msg) h') ∧
    h' !! a = Some da' ∧
    dict_get k da' = Some v' ∧
    repr h' v' ta F'.
Proof.
  intros Hra Hrb Hdisj Hht Hta Hnone.
  destruct (merge_dicts_run fuel rc path a b h ea eb Fa Fb)
    as (h' & da' & Fe' & Hrun & Ha' & Hda' & _); try done.
  assert (Hr : dict_get k (tree_merge rc path ea (Map eb)).2 = Some ta).
  { simpl. rewrite merge_entries_other; [done|]. by apply dict_get_None. }
  destruct (repr_items_get_tree _ _ _ _ _ _ Hda' Hr) as (v' & F' & ? & ? & _).
  exists h', da', v', F'. split_and!; try done. rewrite Hrun.
  destruct (tree_merge rc path ea (Map eb)).1; simpl; eauto.
Qed.

Lemma merge_dicts_keeps_other_keys_witness :
  ∃ h' da' v' F',
    (merge_dicts 2 0 1 true []
       [ [("k", VLeaf (LInt 1))]; [("n", VLeaf (LInt 5))] ] = Returned 0 h' ∨
     ∃ msg, merge_dicts 2 0 1 true []
              [ [("k", VLeaf (LInt 1))]; [("n", VLeaf (LInt 5))] ]
              = Raised (LookupError msg) h') ∧
    h' !! 0 = Some da' ∧
    dict_get "k" da' = Some v' ∧
    repr h' v' (Leaf (LInt 1)) F'.
Proof.
  apply (merge_dicts_keeps_other_keys 2 true [] 0 1
           [ [("k", VLeaf (LInt 1))]; [("n", VLeaf (LInt 5))] ]
           [("k", Leaf (LInt 1))] [("n", Leaf (LInt 5))] {[0]} {[1]} "k").
  - eapply repr_eq; [solve_repr|set_solver].
  - eapply repr_eq; [solve_repr|set_solver].
  - set_solver.
  - vm_compute. lia.
  - reflexivity.
  - reflexivity.
Defined.

Lemma merge_entries_disjoint rec rc path eb : ∀ ea,
  NoDup (dict_keys eb) →
  (∀ k, k ∈ dict_keys eb → dict_get k ea = None) →
  merge_entries rec rc path ea eb = (None, ea ++ eb).
Proof.
  induction eb as [|[k0 t0] eb IH]; intros ea Hnd Hnone; simpl.
  - by rewrite app_nil_r.
  - apply NoDup_cons in Hnd as [Hk0 Hnd].
    unfold merge_entry. rewrite (Hnone k0) by left. simpl.
    rewrite dict_set_absent by (apply Hnone; left).
    rewrite IH; [by rewrite <- app_assoc|done|].
    intros k Hk. rewrite dict_get_app_r by (apply Hnone; by right).
    simpl. destruct (String.eqb_spec k k0) as [->|_]; done.
Qed.

(** When the target has none of the keys of the source, the call returns,
    under either policy, and the target is then the union of the two: it
    holds under a key what it held there, and, under a key it did not
    have, what the source holds there. *)
Theorem merge_dicts_disjoint_union fuel rc path a b
    (h : list (list (string * value))) ea eb Fa Fb :
  repr h (VDict a) (Map ea) Fa →
  repr h (VDict b) (Map eb) Fb →
  Fa ## Fb →
  tree_height (Map eb) ≤ fuel →
  (∀ k, k ∈ dict_keys eb → dict_get k ea = None) →
  ∃ h' r F',
    merge_dicts fuel a b rc path h = Returned a h' ∧
    repr h' (VDict a) (Map r) F' ∧
    ∀ k, dict_get k r = match dict_get k ea with
                        | Some t => Some t
                        | None => dict_get k eb
                        end.
Proof.
  intros Hra Hrb Hdisj Hht Hnone.
  pose proof (proj1 (repr_wf h) _ _ _ Hrb) as Hwf.
  apply wf_tree_Map in Hwf as [Hnd _].
  destruct (merge_dicts_run fuel rc path a b h ea eb Fa Fb)
    as (h' & da' & Fe' & Hrun & Ha' & Hda' & HaFe' & _); try done.
  simpl in Hrun, Hda'. rewrite merge_entries_disjoint in Hrun, Hda' by done.
  exists h', (ea ++ eb), ({[a]} ∪ Fe'). split_and!; [done|by econstructor|].
  intros k. destruct (dict_get k ea) as [t|] eqn:Hk.
  - rewrite dict_get_app_l by (by rewrite Hk). done.
  - by rewrite dict_get_app_r.
Qed.

Lemma merge_dicts_disjoint_union_witness :
  ∃ h' r F',
    merge_dicts 3 0 1 true [] ex_insert = Returned 0 h' ∧
    repr h' (VDict 0) (Map r) F' ∧
    ∀ k, dict_get k r
         = match dict_get k ([] : list (string * tree)) with
           | Some t => Some t
           | None => dict_get k [("x", Map [("y", Leaf (LInt 1))]);
                                 ("z", Leaf LNone)]
           end.
Proof.
  apply (merge_dicts_disjoint_union 3 true [] 0 1 ex_insert
           [] [("x", Map [("y", Leaf (LInt 1))]); ("z", Leaf LNone)]
           {[0]} {[1; 2]}).
  - eapply repr_eq; [solve_repr|set_solver].
  - eapply repr_eq; [solve_repr|set_solver].
  - set_solver.
  - vm_compute. lia.
  - done.
Defined.

Lemma merge_entry_keys rec rc path ea k tb :
  ∃ new, dict_keys (merge_entry rec rc path ea k tb).2 = dict_keys ea ++ new.
Proof.
  unfold merge_entry. destruct (dict_get k ea) as [ta|] eqn:Hget.
  - assert (Hset : ∀ t, dict_keys (dict_set k t ea) = dict_keys ea ++ [])
      by (intros t; rewrite app_nil_r; by apply dict_keys_set_present).
    exists []. destruct ta, tb; try destruct (rec _ _ _);
      try destruct (scalar_eq _ _); try destruct rc; simpl;
      try apply Hset; by rewrite app_nil_r.
  - exists [k]. simpl. rewrite dict_set_absent by done.
    unfold dict_keys. by rewrite map_app.
Qed.

Lemma merge_entries_keys rec rc path eb : ∀ ea,
  ∃ new, dict_keys (merge_entries rec rc path ea eb).2 = dict_keys ea ++ new.
Proof.
  induction eb as [|[k0 t0] eb IH]; intros ea; simpl.
  - exists []. by rewrite app_nil_r.
  - destruct (merge_entry_keys rec rc path ea k0 t0) as [new1 H1].
    destruct (merge_entry rec rc path ea k0 t0) as [[p|] ea1]; simpl in *.
    + by exists new1.
    + destruct (IH ea1) as [new2 H2]. exists (new1 ++ new2).
      by rewrite H2, H1, app_assoc.
Qed.

(** The call removes no key: every key of the target is still one of its
    keys, however the call ends, and the keys it has then are keys it had
    or keys of the source; when the call returns, every key of the source
    is a key of the target. *)
Theorem merge_dicts_keys fuel rc path a b
    (h : list (list (string * value))) ea eb Fa Fb :
  repr h (VDict a) (Map ea) Fa →
  repr h (VDict b) (Map eb) Fb →
  Fa ## Fb →
  tree_height (Map eb) ≤ fuel →
  ∃ h' da',
    (merge_dicts fuel a b rc path h = Returned a h' ∨
     ∃ msg, merge_dicts fuel a b rc path h = Raised (LookupError msg) h') ∧
    h' !! a = Some da' ∧
    (∀ k, k ∈ dict_keys ea → k ∈ dict_keys da') ∧
    (∀ k, k ∈ dict_keys da' → k ∈ dict_keys ea ∨ k ∈ dict_keys eb) ∧
    (merge_dicts fuel a b rc path h = Returned a h' →
     ∀ k, k ∈ dict_keys eb → k ∈ dict_keys da').
Proof.
  intros Hra Hrb Hdisj Hht.
  pose proof (proj1 (repr_wf h) _ _ _ Hrb) as Hwf.
  apply wf_tree_Map in Hwf as [Hnd _].
  destruct (merge_dicts_run fuel rc path a b h ea eb Fa Fb)
    as (h' & da' & Fe' & Hrun & Ha' & Hda' & _); try done.
  destruct (merge_entries_keys (tree_merge rc) rc path eb ea) as [new Hnew].
  exists h', da'. rewrite (repr_items_keys _ _ _ _ Hda'). simpl.
  split_and!; try done.
  - rewrite Hrun. destruct (tree_merge rc path ea (Map eb)).1; simpl; eauto.
  - intros k Hk. rewrite Hnew. apply elem_of_app. by left.
  - intros k Hk. destruct (decide (k ∈ dict_keys eb)) as [|Hn]; [by right|].
    left. destruct (dict_get k ea) as [t|] eqn:Hget;
      [by eapply dict_get_Some_keys|].
    exfalso. revert Hk. apply dict_get_None.
    by rewrite merge_entries_other.
  - rewrite Hrun. intros Hret k Hk.
    destruct (tree_merge rc path ea (Map eb)).1 eqn:Herr; simpl in Hret; [done|].
    destruct (dict_get k eb) as [tb|] eqn:Hget;
      [|by apply dict_get_None in Hget].
    eapply dict_get_Some_keys.
    by apply (merge_entries_value (tree_merge rc) rc path eb ea k tb).
Qed.

Lemma merge_dicts_keys_witness :
  ∃ h' da',
    (merge_dicts 2 0 1 true [] ex_partial = Returned 0 h' ∨
     ∃ msg, merge_dicts 2 0 1 true [] ex_partial
              = Raised (LookupError msg) h') ∧
    h' !! 0 = Some da' ∧
    (∀ k, k ∈ dict_keys [("k", Leaf (LInt 1))] → k ∈ dict_keys da') ∧
    (∀ k, k ∈ dict_keys da' →
          k ∈ dict_keys [("k", Leaf (LInt 1))] ∨
          k ∈ dict_keys [("n", Leaf (LInt 5)); ("k", Leaf (LInt 2))]) ∧
    (merge_dicts 2 0 1 true [] ex_partial = Returned 0 h' →
     ∀ k, k ∈ dict_keys [("n", Leaf (LInt 5)); ("k", Leaf (LInt 2))] →
          k ∈ dict_keys da').
Proof.
  apply (merge_dicts_keys 2 true [] 0 1 ex_partial
           [("k", Leaf (LInt 1))]
           [("n", Leaf (LInt 5)); ("k", Leaf (LInt 2))] {[0]} {[1]}).
  - eapply repr_eq; [solve_repr|set_solver].
  - eapply repr_eq; [solve_repr|set_solver].
  - set_solver.
  - vm_compute. lia.
Defined.

(** The recursive call that a loop has made for a key, both trees holding
    mappings there, has not raised if the loop has not. *)
Lemma merge_entries_ok_nested rec rc path eb : ∀ ea k ea' eb',
  NoDup (dict_keys eb) →
  dict_get k ea = Some (Map ea') →
  dict_get k eb = Some (Map eb') →
  (merge_entries rec rc path ea eb).1 = None →
  (rec (path ++ [k]) ea' (Map eb')).1 = None.
Proof.
  induction eb as [|[k0 t0] eb IH]; intros ea k ea' eb' Hnd Hta Htb;
    simpl in *; [done|].
  apply NoDup_cons in Hnd as [Hk0 Hnd].
  destruct (String.eqb_spec k k0) as [->|Hne].
  - injection Htb as ->. unfold merge_entry. rewrite Hta.
    destruct (rec (path ++ [k0]) ea' (Map eb')) as [[fp|] r]; simpl; done.
  - pose proof (merge_entry_other rec rc path ea k0 t0 k Hne) as Hoth.
    destruct (merge_entry rec rc path ea k0 t0) as [[fp|] ea1]; simpl in *;
      [done|].
    apply IH; try done. by rewrite Hoth.
Qed.

(** Under a key where both trees hold mappings, the target is merged, not
    replaced: when the call returns, the mapping that the target holds
    there still has, with their values, the keys of its own that the
    mapping of the source does not have, and it has every key of the
    mapping of the source. *)
Theorem merge_dicts_merges_nested fuel rc path a b
    (h : list (list (string * value))) ea eb Fa Fb k ea' eb' :
  repr h (VDict a) (Map ea) Fa →
  repr h (VDict b) (Map eb) Fb →
  Fa ## Fb →
  tree_height (Map eb) ≤ fuel →
  dict_get k ea = Some (Map ea') →
  dict_get k eb = Some (Map eb') →
  ∀ h', merge_dicts fuel a b rc path h = Returned a h' →
    ∃ da' v' r' F',
      h' !! a = Some da' ∧
      dict_get k da' = Some v' ∧
      repr h' v' (Map r') F' ∧
      (∀ k' t', dict_get k' ea' = Some t' → dict_get k' eb' = None →
                dict_get k' r' = Some t') ∧
      (∀ k', k' ∈ dict_keys eb' → k' ∈ dict_keys r').
Proof.
  intros Hra Hrb Hdisj Hht Hta Htb h' Hret.
  pose proof (proj1 (repr_wf h) _ _ _ Hrb) as Hwf.
  pose proof (wf_tree_get _ _ _ Hwf Htb) as Hwf'.
  apply wf_tree_Map in Hwf as [Hnd _]. apply wf_tree_Map in Hwf' as [Hnd' _].
  destruct (merge_dicts_run fuel rc path a b h ea eb Fa Fb)
    as (h1 & da1 & Fe1 & Hrun & Ha1 & Hda1 & _); try done.
  rewrite Hrun in Hret.
  destruct (tree_merge rc path ea (Map eb)).1 eqn:Herr; simpl in Hret; [done|].
  injection Hret as <-. simpl in Herr, Hda1.
  pose proof (merge_entries_value (tree_merge rc) rc path eb ea k (Map eb')
                Hnd Htb Herr) as Hr.
  pose proof (merge_entries_ok_nested (tree_merge rc) rc path eb ea k ea' eb'
                Hnd Hta Htb Herr) as Hok'.
  rewrite Hta in Hr. simpl in Hr, Hok'.
  destruct (repr_items_get_tree _ _ _ _ _ _ Hda1 Hr) as (v' & F' & ? & ? & _).
  exists da1, v', (merge_entries (tree_merge rc) rc (path ++ [k]) ea' eb').2, F'.
  split_and!; try done.
  - intros k' t' Hk' Hnone. rewrite merge_entries_other; [done|].
    by apply dict_get_None.
  - intros k' Hk'. destruct (dict_get k' eb') as [tb'|] eqn:Hget;
      [|by apply dict_get_None in Hget].
    eapply dict_get_Some_keys.
    by apply (merge_entries_value (tree_merge rc) rc (path ++ [k]) eb' ea' k' tb').
Qed.

Lemma merge_dicts_merges_nested_witness :
  ∃ da' v' r' F',
    [ [("x", VDict 1)]; [("y", VLeaf (LInt 1)); ("w", VLeaf LNone)];
      [("x", VDict 3)]; [("w", VLeaf LNone)] ] !! 0 = Some da' ∧
    dict_get "x" da' = Some v' ∧
    repr [ [("x", VDict 1)]; [("y", VLeaf (LInt 1)); ("w", VLeaf LNone)];
           [("x", VDict 3)]; [("w", VLeaf LNone)] ] v' (Map r') F' ∧
    (∀ k' t', dict_get k' [("y", Leaf (LInt 1))] = Some t' →
              dict_get k' [("w", Leaf LNone)] = None →
              dict_get k' r' = Some t') ∧
    (∀ k', k' ∈ dict_keys [("w", Leaf LNone)] → k' ∈ dict_keys r').
Proof.
  apply (merge_dicts_merges_nested 3 false [] 0 2
           [ [("x", VDict 1)]; [("y", VLeaf (LInt 1))];
             [("x", VDict 3)]; [("w", VLeaf LNone)] ]
           [("x", Map [("y", Leaf (LInt 1))])]
           [("x", Map [("w", Leaf LNone)])] {[0; 1]} {[2; 3]} "x"
           [("y", Leaf (LInt 1))] [("w", Leaf LNone)]).
  - eapply repr_eq; [solve_repr|set_solver].
  - eapply repr_eq; [solve_repr|set_solver].
  - set_solver.
  - vm_compute. lia.
  - reflexivity.
  - reflexivity.
  - reflexivity.
Defined.

Section merge_self.
Variable fuel : nat.
Hypothesis IH : ∀ a t F path (h : list (list (string * value))),
  repr h (VDict a) t F → tree_height t ≤ fuel →
  merge_dicts fuel a a false path h = Returned a h.

Lemma merge_keys_self a path (h : list (list (string * value))) da keys :
  h !! a = Some da →
  (∀ k, k ∈ keys → ∃ v t F, dict_get k da = Some v ∧ repr h v t F ∧
                            tree_height t ≤ fuel) →
  merge_keys (λ a' b', merge_dicts fuel a' b' false) fuel false a a path
    (length da) keys h = Returned a h.
Proof.
  intros Ha. induction keys as [|k keys IHk]; intros Hall; simpl.
  - by rewrite Ha, Nat.eqb_refl.
  - rewrite Ha, Nat.eqb_refl. simpl.
    destruct (Hall k) as (v & t & F & Hv & Hr & Hht); [left|].
    assert (Hstep : merge_key (λ a' b', merge_dicts fuel a' b' false) fuel false
                      a a path k h = Returned tt h).
    { unfold merge_key. rewrite Ha, Hv. destruct v as [x|a'].
      - simpl. destruct (leaf_eq x x); [done|].
        by rewrite dict_set_same, list_insert_id.
      - by rewrite (IH a' t F). }
    rewrite Hstep. apply IHk. intros k' Hk'. apply Hall. by right.
Qed.
End merge_self.

(** Without [raise_conflicts], merging a dictionary into itself, the
    target and the source being the same object, returns it with the
    store as it was, whether or not its values compare equal to
    themselves. *)
Theorem merge_dicts_self fuel : ∀ a t F path
    (h : list (list (string * value))),
  repr h (VDict a) t F →
  tree_height t ≤ fuel →
  merge_dicts fuel a a false path h = Returned a h.
Proof.
  induction fuel as [|fuel IH]; intros a t F path h Hr Hht.
  { pose proof (tree_height_pos t). lia. }
  inversion Hr as [|a0 da es Fe Hda Hitems HaFe]; subst.
  rewrite tree_height_Map in Hht. simpl. rewrite Hda.
  apply (merge_keys_self fuel IH); [done|].
  intros k Hk. destruct (dict_get k da) as [v|] eqn:Hv;
    [|by apply dict_get_None in Hv].
  destruct (repr_items_get _ _ _ _ _ _ Hitems Hv) as (t & Fk & Fr & Ht & Hrv & _).
  exists v, t, Fk. split_and!; [done|done|].
  apply entries_height_get in Ht. lia.
Qed.

Lemma merge_dicts_self_witness :
  merge_dicts 3 1 1 false ["p"] ex_alias = Returned 1 ex_alias.
Proof.
  apply (merge_dicts_self 3 1 (Map [("x", Map [("y", Leaf (LInt 1))])])
           {[1; 2]} ["p"] ex_alias).
  - eapply repr_eq; [solve_repr|set_solver].
  - vm_compute. lia.
Defined.

(** On dictionaries that hold themselves the recursion does not end: with
    [a[k]] being [a] and [b] being [{k: b}], no depth of recursion lets the
    call finish. *)
Theorem merge_dicts_cyclic_diverges rc a b k
    (h : list (list (string * value))) da :
  h !! a = Some da →
  dict_get k da = Some (VDict a) →
  h !! b = Some [(k, VDict b)] →
  ∀ fuel path, merge_dicts fuel a b rc path h = OutOfFuel.
Proof.
  intros Ha Hk Hb fuel. induction fuel as [|fuel IH]; intros path; [done|].
  simpl. rewrite Ha, Hb. simpl. rewrite Hb. simpl.
  unfold merge_key. rewrite Ha, Hb. simpl. rewrite String.eqb_refl, Hk.
  by rewrite IH.
Qed.

Lemma merge_dicts_cyclic_diverges_witness :
  merge_dicts 7 0 1 false []
    [ [("x", VDict 0); ("y", VLeaf LNone)]; [("x", VDict 1)] ] = OutOfFuel.
Proof.
  apply (merge_dicts_cyclic_diverges false 0 1 "x"
           [ [("x", VDict 0); ("y", VLeaf LNone)]; [("x", VDict 1)] ]
           [("x", VDict 0); ("y", VLeaf LNone)] eq_refl eq_refl eq_refl 7 []).
Defined.

(** * remove_args *)

(** [str.lower()], on the ASCII letters. *)
Definition ascii_lower (c : ascii) : ascii :=
  let n := nat_of_ascii c in
  if (65 <=? n) && (n <=? 90) then ascii_of_nat (n + 32) else c.

Fixpoint lower (s : string) : string :=
  match s with
  | EmptyString => EmptyString
  | String c s' => String (ascii_lower c) (lower s')
  end.

(** The first loop, [skip_next] being the flag it carries from one item to
    the next, and the list returned the items appended to
    [new_command_args] from here on. *)
Fixpoint prune_command_args (kill : list string) (skip_next : bool)
    (command_args : list string) : list string :=
  match command_args with
  | [] => []
  | item :: rest =>
      if skip_next then prune_command_args kill false rest
      else if bool_decide (lower item ∈ kill) then
        prune_command_args kill true rest
      else item :: prune_command_args kill false rest
  end.

(** The second loop: [new_args[k] = v] for the items whose key is not in
    [kill]. *)
Definition prune_args {V : Type} (kill : list string)
    (args : list (string * V)) : list (string * V) :=
  fold_left
    (λ new_args kv, if bool_decide (kv.1 ∈ kill) then new_args
                    else dict_set kv.1 kv.2 new_args)
    args [].

Definition remove_args {V : Type} (command_args : list string)
    (args : list (string * V)) (kill : list string)
  : list string * list (string * V) :=
  (prune_command_args kill false command_args, prune_args kill args).

Lemma ascii_lower_idemp c : ascii_lower (ascii_lower c) = ascii_lower c.
Proof. by destruct c as [[] [] [] [] [] [] [] []]. Qed.

Lemma lower_idemp s : lower (lower s) = lower s.
Proof. induction s as [|c s IH]; simpl; [done|]. by rewrite ascii_lower_idemp, IH. Qed.

Lemma prune_command_args_no_killed kill : ∀ command_args skip_next x,
  x ∈ prune_command_args kill skip_next command_args → lower x ∉ kill.
Proof.
  induction command_args as [|item rest IH]; intros skip_next x; simpl.
  - intros H. by apply elem_of_nil in H.
  - destruct skip_next; [apply IH|]. case_bool_decide as Hk; [apply IH|].
    intros [->|H]%elem_of_cons; [done|by eapply IH].
Qed.

Lemma prune_command_args_sublist kill : ∀ command_args skip_next,
  sublist (prune_command_args kill skip_next command_args) command_args.
Proof.
  induction command_args as [|item rest IH]; intros skip_next; simpl; [done|].
  destruct skip_next; [by apply sublist_cons|].
  case_bool_decide; [by apply sublist_cons|by apply sublist_skip].
Qed.

Lemma prune_command_args_id kill command_args :
  (∀ x, x ∈ command_args → lower x ∉ kill) →
  prune_command_args kill false command_args = command_args.
Proof.
  induction command_args as [|item rest IH]; intros Hall; simpl; [done|].
  rewrite bool_decide_eq_false_2 by (apply Hall; left).
  rewrite IH; [done|]. intros x Hx. apply Hall. by right.
Qed.

Lemma prune_command_args_app kill pre rest :
  (∀ x, x ∈ pre → lower x ∉ kill) →
  prune_command_args kill false (pre ++ rest)
    = pre ++ prune_command_args kill false rest.
Proof.
  induction pre as [|item pre IH]; intros Hall; simpl; [done|].
  rewrite bool_decide_eq_false_2 by (apply Hall; left).
  rewrite IH; [done|]. intros x Hx. apply Hall. by right.
Qed.

(** No item of the pruned command line is, in lower case, in [kill], and
    the pruned command line is the given one with items left out. *)
Theorem remove_args_command_args {V : Type} command_args
    (args : list (string * V)) kill :
  (∀ x, x ∈ (remove_args command_args args kill).1 → lower x ∉ kill) ∧
  sublist (remove_args command_args args kill).1 command_args.
Proof.
  split.
  - intros x. apply prune_command_args_no_killed.
  - apply prune_command_args_sublist.
Qed.

(** An item that is in [kill] goes together with the item after it,
    whatever that one is, and the pruning goes on after the two as from
    the start: the item after a killed one is not looked at, so that when
    it is itself in [kill], what comes after it is not dropped for it. *)
Theorem remove_args_drops_pair {V : Type} pre item next rest
    (args : list (string * V)) kill :
  (∀ x, x ∈ pre → lower x ∉ kill) →
  lower item ∈ kill →
  (remove_args (pre ++ item :: next :: rest) args kill).1
    = pre ++ (remove_args rest args kill).1.
Proof.
  intros Hpre Hitem. unfold remove_args. simpl.
  rewrite prune_command_args_app by done. simpl.
  by rewrite bool_decide_eq_true_2.
Qed.

Lemma remove_args_drops_pair_witness :
  (remove_args (["test"] ++ "--Tags" :: "--tags" :: ["x"; "y"])
     ([] : list (string * nat)) ["--tags"]).1
  = ["test"] ++ (remove_args ["x"; "y"] ([] : list (string * nat)) ["--tags"]).1.
Proof.
  apply (remove_args_drops_pair ["test"] "--Tags" "--tags" ["x"; "y"]
           ([] : list (string * nat)) ["--tags"]).
  - intros x Hx. apply list_elem_of_singleton in Hx as ->.
    vm_compute. intros H. apply list_elem_of_singleton in H. done.
  - vm_compute. left.
Defined.

(** Pruning a pruned command line changes nothing. *)
Theorem remove_args_idempotent {V : Type} command_args
    (args args' : list (string * V)) kill :
  (remove_args (remove_args command_args args kill).1 args' kill).1
    = (remove_args command_args args kill).1.
Proof.
  unfold remove_args. simpl. apply prune_command_args_id.
  intros x. apply prune_command_args_no_killed.
Qed.

(** The items of the command line are compared in lower case and those of
    [kill] as they are: when no item of [kill] is in lower case, nothing
    is removed from the command line. *)
Theorem remove_args_uppercase_kill {V : Type} command_args
    (args : list (string * V)) kill :
  (∀ k, k ∈ kill → lower k ≠ k) →
  (remove_args command_args args kill).1 = command_args.
Proof.
  intros Hkill. unfold remove_args. simpl. apply prune_command_args_id.
  intros x _ Hin. apply (Hkill _ Hin). apply lower_idemp.
Qed.

Lemma remove_args_uppercase_kill_witness :
  (remove_args ["--debug"; "x"; "--DEBUG"] ([] : list (string * nat))
     ["--Debug"]).1
  = ["--debug"; "x"; "--DEBUG"].
Proof.
  apply (remove_args_uppercase_kill ["--debug"; "x"; "--DEBUG"]
           ([] : list (string * nat)) ["--Debug"]).
  intros k Hk. apply list_elem_of_singleton in Hk as ->. vm_compute. done.
Defined.

Lemma prune_args_fold {V : Type} (kill : list string)
    (args : list (string * V)) : ∀ acc,
  NoDup (dict_keys args) →
  (∀ k, k ∈ dict_keys args → dict_get k acc = None) →
  fold_left
    (λ new_args kv, if bool_decide (kv.1 ∈ kill) then new_args
                    else dict_set kv.1 kv.2 new_args)
    args acc
  = acc ++ filter (λ kv, kv.1 ∉ kill) args.
Proof.
  induction args as [|[k v] args IH]; intros acc Hnd Hnew; simpl.
  - by rewrite app_nil_r.
  - apply NoDup_cons in Hnd as [Hk Hnd].
    rewrite filter_cons. simpl. case_bool_decide as Hkill.
    + rewrite decide_False by (by intros ?). apply IH; [done|].
      intros k' Hk'. apply Hnew. by right.
    + rewrite decide_True by done.
      rewrite dict_set_absent by (apply Hnew; left).
      rewrite IH; [by rewrite <- app_assoc|done|].
      intros k' Hk'. rewrite dict_get_app_r by (apply Hnew; by right).
      simpl. destruct (String.eqb_spec k' k) as [->|_]; done.
Qed.

Lemma dict_get_filter_kill {V : Type} (kill : list string)
    (args : list (string * V)) k :
  dict_get k (filter (λ kv, kv.1 ∉ kill) args)
    = if bool_decide (k ∈ kill) then None else dict_get k args.
Proof.
  induction args as [|[k0 v0] args IH]; simpl.
  - by case_bool_decide.
  - rewrite filter_cons. simpl. destruct (decide (k0 ∉ kill)) as [Hin|Hin]; simpl.
    + destruct (String.eqb_spec k k0) as [->|_]; [|done].
      by rewrite bool_decide_eq_false_2.
    + rewrite IH. destruct (String.eqb_spec k k0) as [->|_]; [|done].
      rewrite bool_decide_eq_true_2; [done|]. by apply dec_stable.
Qed.

(** The pruned arguments are the given ones without those whose key is in
    [kill], compared as it is: a key in [kill] is absent, and any other
    key has the value it had. *)
Theorem remove_args_args {V : Type} command_args (args : list (string * V))
    (kill : list string) :
  NoDup (dict_keys args) →
  ∀ k, dict_get k (remove_args command_args args kill).2
       = if bool_decide (k ∈ kill) then None else dict_get k args.
Proof.
  intros Hnd k. unfold remove_args, prune_args. simpl.
  rewrite prune_args_fold by done. apply dict_get_filter_kill.
Qed.

Lemma remove_args_args_witness :
  dict_get "--tags"
    (remove_args ["test"] [("--debug", 1); ("--tags", 2); ("<cmd>", 3)]
       ["--tags"]).2
  = (if bool_decide ("--tags" ∈ ["--tags"]) then None
     else dict_get "--tags" [("--debug", 1); ("--tags", 2); ("<cmd>", 3)]) ∧
  dict_get "--debug"
    (remove_args ["test"] [("--debug", 1); ("--tags", 2); ("<cmd>", 3)]
       ["--tags"]).2
  = (if bool_decide ("--debug" ∈ ["--tags"]) then None
     else dict_get "--debug" [("--debug", 1); ("--tags", 2); ("<cmd>", 3)]).
Proof.
  split;
    apply (remove_args_args ["test"]
             [("--debug", 1); ("--tags", 2); ("<cmd>", 3)] ["--tags"]);
    vm_compute; repeat constructor; set_solver.
Defined.

(** With nothing to remove, both the command line and the arguments come
    back as they were given. *)
Theorem remove_args_nothing_to_kill {V : Type} command_args
    (args : list (string * V)) :
  NoDup (dict_keys args) →
  remove_args command_args args [] = (command_args, args).
Proof.
  intros Hnd. unfold remove_args. f_equal.
  - apply prune_command_args_id. intros x _ Hin. by apply elem_of_nil in Hin.
  - unfold prune_args. rewrite prune_args_fold by done. simpl.
    induction args as [|kv args IH]; [done|].
    apply NoDup_cons in Hnd as [_ Hnd]. rewrite filter_cons.
    rewrite decide_True by apply not_elem_of_nil. by rewrite IH.
Qed.

Lemma remove_args_nothing_to_kill_witness :
  remove_args ["test"; "--debug"] [("--debug", 1); ("<cmd>", 3)] []
  = (["test"; "--debug"], [("--debug", 1); ("<cmd>", 3)]).
Proof.
  apply (remove_args_nothing_to_kill ["test"; "--debug"]
           [("--debug", 1); ("<cmd>", 3)]).
  vm_compute. repeat constructor; set_solver.
Defined.

(** * Further properties of format_instance_name *)

(** When the options of the first record of that name are neither [None]
    nor a mapping, the call ends with the [AttributeError] of their
    missing [get]. *)
Theorem format_instance_name_scalar_options name platform pre inst post x :
  Forall (λ r, other_name name r = true) pre →
  has_name name inst = true →
  dict_get "options" inst = Some (Leaf x) →
  x ≠ LNone →
  format_instance_name name platform (pre ++ inst :: post) = inl AttributeError.
Proof.
  intros Hpre Hinst Hopt Hx. unfold format_instance_name.
  rewrite find_instance_first by done. rewrite Hopt. by destruct x.
Qed.

Lemma format_instance_name_scalar_options_witness :
  format_instance_name "web" "ec2"
    ([] ++ [("name", Leaf (LStr "web")); ("options", Leaf (LStr "none"))] :: [])
  = inl AttributeError.
Proof.
  apply (format_instance_name_scalar_options "web" "ec2" []
           [("name", Leaf (LStr "web")); ("options", Leaf (LStr "none"))] []
           (LStr "none")); [constructor|reflexivity|reflexivity|done].
Defined.

(** The records after the first one of that name are not looked at: the
    result is the same without them, whatever they are. *)
Theorem format_instance_name_first_wins name platform pre inst post :
  Forall (λ r, other_name name r = true) pre →
  has_name name inst = true →
  format_instance_name name platform (pre ++ inst :: post)
    = format_instance_name name platform (pre ++ [inst]).
Proof.
  intros Hpre Hinst. unfold format_instance_name.
  by rewrite !find_instance_first.
Qed.

Lemma format_instance_name_first_wins_witness :
  format_instance_name "web" "ec2"
    ([ [("name", Leaf (LStr "db"))] ] ++ [("name", Leaf (LStr "web"))] ::
     [ [("options", Leaf LNone)];
       [("name", Leaf (LStr "web"));
        ("options", Map [("append_platform_to_hostname", Leaf (LBool true))])] ])
  = format_instance_name "web" "ec2"
      ([ [("name", Leaf (LStr "db"))] ] ++ [ [("name", Leaf (LStr "web"))] ]).
Proof.
  apply (format_instance_name_first_wins "web" "ec2"
           [ [("name", Leaf (LStr "db"))] ] [("name", Leaf (LStr "web"))]);
    [repeat constructor|reflexivity].
Defined.

Lemma find_instance_found name instances inst :
  find_instance name instances = inr (Some inst) →
  inst ∈ instances ∧ has_name name inst = true.
Proof.
  induction instances as [|r rest IH]; simpl; [done|].
  destruct (dict_get "name" r) as [v|] eqn:Hv; [|done].
  destruct (scalar_eq v (Leaf (LStr name))) eqn:Heq.
  - intros [= <-]. split; [left|]. unfold has_name. by rewrite Hv.
  - intros H. destruct (IH H). split; [by right|done].
Qed.

(** What the call returns, when it returns a name, is [name] itself or
    [name + '-' + platform], and then one of the records has [name] as
    its ['name']; the second, only when the options of such a record
    switch [append_platform_to_hostname] on. *)
Theorem format_instance_name_result name platform instances s :
  format_instance_name name platform instances = inr (Some s) →
  ∃ inst, inst ∈ instances ∧ has_name name inst = true ∧
    (s = name ∨
     s = name +:+ "-" +:+ platform ∧
     ∃ options, dict_get "options" inst = Some (Map options) ∧
                appends_platform options = true).
Proof.
  unfold format_instance_name.
  destruct (find_instance name instances) as [e|[inst|]] eqn:Hfind; try done.
  destruct (find_instance_found _ _ _ Hfind) as [Hin Hname].
  intros H. exists inst. split_and!; [done|done|].
  destruct (dict_get "options" inst) as [[[]|options]|]; try done;
    try (injection H as <-; by left).
  unfold appends_platform.
  destruct (dict_get "append_platform_to_hostname" options) as [v|] eqn:Hv;
    [|injection H as <-; by left].
  destruct (truthy v) eqn:Ht; injection H as <-; [|by left].
  right. split; [done|]. exists options. by rewrite Hv.
Qed.

Lemma format_instance_name_result_witness :
  ∃ inst,
    inst ∈ [ [("name", Leaf (LStr "web"));
              ("options",
               Map [("append_platform_to_hostname", Leaf (LInt 1))])] ] ∧
    has_name "web" inst = true ∧
    ("web-ec2" = "web" ∨
     "web-ec2" = "web" +:+ "-" +:+ "ec2" ∧
     ∃ options, dict_get "options" inst = Some (Map options) ∧
                appends_platform options = true).
Proof.
  apply (format_instance_name_result "web" "ec2"
           [ [("name", Leaf (LStr "web"));
              ("options",
               Map [("append_platform_to_hostname", Leaf (LInt 1))])] ]
           "web-ec2" eq_refl).
Defined.
